(** * Style-expression facade, icon quads and the DEM tile worker source

    A shallow embedding of three pieces of the map renderer:

    - the class [RasterDEMTileWorkerSource], the worker-side store of
      elevation tiles ([loading] / [loaded] dictionaries keyed by source and
      uid);
    - [getIconQuads] of [symbol/quads.js];
    - [compileExpression] of [style-spec/function/compile.js], the facade of
      the style-expression compiler.

    JavaScript objects used as dictionaries are finite maps of their own
    properties; the names they inherit from [Object.prototype] are kept
    apart, and [loadTile] is modelled for the other names only.  Numbers are
    IEEE-754 binary64 floats, exceptions and callbacks are explicit in the
    outcome of each operation.

    The modules the facade requires (types, definitions, parser, classifiers,
    evaluator) are parameters of the facade.  The second half of the file
    models them after the design document of the compiler, each definition
    saying so, and runs the facade over that model. *)

From Stdlib Require Import Floats.
From stdpp Require Import gmap strings list fin_maps pretty.

(* ===================================================================== *)
(** * RasterDEMTileWorkerSource *)
(* ===================================================================== *)

Module RasterDEMTileWorkerSource.

(** A two-level dictionary [{[string]: {[string]: V}}]: the own properties
    of the outer object and, under each, those of the inner one. *)
Abbreviation dict2 V := (gmap string (gmap string V)).

(** The own entry under [source] and [uid].  For names that are not
    inherited (see [Key] below) this is what [obj[source] &&
    obj[source][uid]] reads. *)
Definition lookup2 {V} (m : dict2 V) (source uid : string) : option V :=
  m !! source ≫= (.!! uid).

(** The property names of [Object.prototype] that the language defines,
    with those of its annex B. *)
Definition Object_prototype : list string :=
  [ "constructor"; "hasOwnProperty"; "isPrototypeOf"; "propertyIsEnumerable";
    "toLocaleString"; "toString"; "valueOf"; "__proto__";
    "__defineGetter__"; "__defineSetter__"; "__lookupGetter__";
    "__lookupSetter__" ].

Section WorkerSource.

(** [DEMData] lives in [data/dem_data.js], of which only the unit test is
    at hand: the class is abstract here.  [loadFromImage] mutates the
    receiver and may throw (the test file expects "out of range source
    coordinates" exceptions from the level setters), so it returns the
    receiver as it was left together with the exception, if any.
    [serialize] may push onto the array it is given. *)
Context {DEMData RGBAImage SerializedDEMData Transferable Exn : Type}.
Variable DEMData_new : string → DEMData.
Variable loadFromImage : DEMData → RGBAImage → DEMData * option Exn.
Variable serialize :
  DEMData → list Transferable →
  DEMData * list Transferable * (Exn + SerializedDEMData).

(** The dictionaries are object literals, so every one of them inherits
    from [Object.prototype].  A name found there reads as a truthy value on
    an empty dictionary, [obj.__proto__ = dem] sets the prototype and
    creates no property, and a write under such a source goes to an object
    shared by every dictionary.  Besides the names the language defines, an
    engine or a library may have put more of them on [Object.prototype]
    ([watch], [unwatch] and [toSource] in some engines): [engine_names]. *)
Variable engine_names : list string.

Definition inherited (k : string) : bool :=
  existsb (String.eqb k) (Object_prototype ++ engine_names).

(** A name that is not inherited: under such a name a dictionary holds what
    was stored in it and nothing else.  [loadTile] is modelled for a source
    and a uid of this kind only; what it does for an inherited name is
    outside this model. *)
Record Key := key {
  name : string;
  name_own : inherited name = false
}.

(** The two fields the methods touch ([actor] is never read by them). *)
Record t := mk {
  loading : dict2 DEMData;
  loaded : dict2 DEMData
}.

(** [constructor(actor)] *)
Definition create : t := {| loading := ∅; loaded := ∅ |}.

Record TileParameters := {
  source : Key;
  uid : Key;
  rawImageData : RGBAImage
}.

(** One invocation of [callback(err, result, transferrables)]; [null] is
    [None]. *)
Record CallbackArgs := {
  cb_err : option Exn;
  cb_result : option SerializedDEMData;
  cb_transferrables : option (list Transferable)
}.

(** What a method call leaves behind: the object's fields, the callback
    invocations it made, in order, and the exception it ended with
    ([None]: it returned). *)
Record outcome := {
  state : t;
  calls : list CallbackArgs;
  thrown : option Exn
}.

(** [if (!obj[source]) obj[source] = {}], respectively
    [obj[source] = obj[source] || {}], for a source that is not inherited:
    [obj[source]] is then an own dictionary, which is truthy, or
    [undefined]. *)
Definition ensure (m : dict2 DEMData) (source : Key) : dict2 DEMData :=
  match m !! name source with
  | Some _ => m
  | None => <[name source := ∅]> m
  end.

(** [obj[source][uid] = dem], for an [obj[source]] that exists and names
    that are not inherited: an own property of the inner dictionary is
    created or overwritten. *)
Definition set2 (m : dict2 DEMData) (source uid : Key) (dem : DEMData)
  : dict2 DEMData :=
  match m !! name source with
  | Some inner => <[name source := <[name uid := dem]> inner]> m
  | None => m
  end.

(** [delete obj[source][uid]], for an [obj[source]] that exists and names
    that are not inherited. *)
Definition delete2 (m : dict2 DEMData) (source uid : Key)
  : dict2 DEMData :=
  match m !! name source with
  | Some inner => <[name source := delete (name uid) inner]> m
  | None => m
  end.

(** [loadTile(params, callback)].  The entry stored under [uid] and the
    local [dem] are one object: whatever [loadFromImage] and [serialize]
    do to [dem] shows in the entry, which is therefore written again after
    each of the two calls. *)
Definition loadTile (params : TileParameters) (this : t) : outcome :=
  let source := source params in
  let uid := uid params in
  let loading := ensure (loading this) source in
  let dem := DEMData_new (name uid) in
  let loading := set2 loading source uid dem in
  let '(dem, exn) := loadFromImage dem (rawImageData params) in
  let loading := set2 loading source uid dem in
  match exn with
  | Some e =>
      {| state := mk loading (loaded this); calls := []; thrown := Some e |}
  | None =>
      let transferrables := [] in
      let loading := delete2 loading source uid in
      let loaded := ensure (loaded this) source in
      let loaded := set2 loaded source uid dem in
      let '(dem, transferrables, ser) := serialize dem transferrables in
      let loaded := set2 loaded source uid dem in
      match ser with
      | inl e =>
          {| state := mk loading loaded; calls := []; thrown := Some e |}
      | inr result =>
          {| state := mk loading loaded;
             calls := [ {| cb_err := None; cb_result := Some result;
                           cb_transferrables := Some transferrables |} ];
             thrown := None |}
      end
  end.

(** [removeTile(params)], on the object's own state: [loaded && loaded[uid]]
    holds of an own dictionary exactly when the entry exists, a [DEMData]
    object being truthy, and [delete] removes own properties only. *)
Definition removeTile (source uid : string) (this : t) : t :=
  match loaded this !! source with
  | Some inner =>
      match inner !! uid with
      | Some _ =>
          {| loading := loading this;
             loaded := <[source := delete uid inner]> (loaded this) |}
      | None => this
      end
  | None => this
  end.

(** The names under which the tile of a call is stored. *)
Definition tile (params : TileParameters) : string * string :=
  (name (source params), name (uid params)).

(** No [Key] is a property name of [Object.prototype]. *)
Lemma Key_not_inherited (k : Key) : name k ∉ Object_prototype.
Proof.
  intros Hin. pose proof (name_own k) as Hown. unfold inherited in Hown.
  apply not_true_iff_false in Hown. apply Hown.
  apply existsb_exists. exists (name k). split.
  - apply in_or_app. left. by apply list_elem_of_In.
  - apply String.eqb_refl.
Qed.

(** ** Two-level lookups after the elementary updates *)

Lemma lookup2_ensure m s s' u :
  lookup2 (ensure m s) s' u = lookup2 m s' u.
Proof.
  unfold lookup2, ensure. destruct (m !! name s) eqn:E; [done|].
  destruct (decide (name s = s')) as [<-|Hne].
  - by rewrite lookup_insert_eq, E.
  - by rewrite lookup_insert_ne.
Qed.

Lemma ensure_is_Some m s : is_Some (ensure m s !! name s).
Proof.
  unfold ensure. destruct (m !! name s) eqn:E; [by rewrite E|].
  rewrite lookup_insert_eq. eauto.
Qed.

Lemma lookup2_set2_eq m s u d :
  is_Some (m !! name s) → lookup2 (set2 m s u d) (name s) (name u) = Some d.
Proof.
  intros [inner E]. unfold lookup2, set2. rewrite E.
  rewrite lookup_insert_eq. simpl. apply lookup_insert_eq.
Qed.

Lemma lookup2_set2_ne m s u d s' u' :
  (name s, name u) ≠ (s', u') →
  lookup2 (set2 m s u d) s' u' = lookup2 m s' u'.
Proof.
  intros Hne. unfold lookup2, set2.
  destruct (m !! name s) as [inner|] eqn:E; [|done].
  destruct (decide (name s = s')) as [<-|Hs].
  - rewrite lookup_insert_eq, E. simpl.
    apply lookup_insert_ne. congruence.
  - by rewrite lookup_insert_ne.
Qed.

Lemma set2_is_Some m s u d s' :
  is_Some (set2 m s u d !! s') ↔ is_Some (m !! s').
Proof.
  unfold set2. destruct (m !! name s) as [inner|] eqn:E; [|done].
  destruct (decide (name s = s')) as [<-|Hs].
  - rewrite lookup_insert_eq, E. split; eauto.
  - by rewrite lookup_insert_ne.
Qed.

Lemma lookup2_delete2_eq m s u :
  lookup2 (delete2 m s u) (name s) (name u) = None.
Proof.
  unfold lookup2, delete2. destruct (m !! name s) as [inner|] eqn:E.
  - rewrite lookup_insert_eq. simpl. apply lookup_delete_eq.
  - by rewrite E.
Qed.

Lemma lookup2_delete2_ne m s u s' u' :
  (name s, name u) ≠ (s', u') →
  lookup2 (delete2 m s u) s' u' = lookup2 m s' u'.
Proof.
  intros Hne. unfold lookup2, delete2.
  destruct (m !! name s) as [inner|] eqn:E; [|done].
  destruct (decide (name s = s')) as [<-|Hs].
  - rewrite lookup_insert_eq, E. simpl.
    apply lookup_delete_ne. congruence.
  - by rewrite lookup_insert_ne.
Qed.

(** ** [removeTile] *)

Lemma removeTile_loading s u this :
  loading (removeTile s u this) = loading this.
Proof.
  unfold removeTile. destruct (loaded this !! s) as [inner|]; [|done].
  by destruct (inner !! u).
Qed.

Lemma removeTile_absent s u this :
  lookup2 (loaded this) s u = None → removeTile s u this = this.
Proof.
  unfold lookup2, removeTile. destruct (loaded this !! s) as [inner|]; [|done].
  simpl. by intros ->.
Qed.

Lemma removeTile_gone s u this :
  lookup2 (loaded (removeTile s u this)) s u = None.
Proof.
  unfold removeTile.
  destruct (loaded this !! s) as [inner|] eqn:E; [|by unfold lookup2; rewrite E].
  destruct (inner !! u) eqn:Eu; [|by unfold lookup2; rewrite E].
  unfold lookup2. simpl. rewrite lookup_insert_eq. simpl. apply lookup_delete_eq.
Qed.

Lemma removeTile_other s u this s' u' :
  (s', u') ≠ (s, u) →
  lookup2 (loaded (removeTile s u this)) s' u' = lookup2 (loaded this) s' u'.
Proof.
  intros Hne. unfold removeTile.
  destruct (loaded this !! s) as [inner|] eqn:E; [|done].
  destruct (inner !! u) eqn:Eu; [|done].
  unfold lookup2. simpl. destruct (decide (s = s')) as [<-|Hs].
  - rewrite lookup_insert_eq, E. simpl. apply lookup_delete_ne. congruence.
  - by rewrite lookup_insert_ne.
Qed.

(** [removeTile] never drops (or adds) a per-source dictionary. *)
Lemma removeTile_sources s u this s' :
  is_Some (loaded (removeTile s u this) !! s') ↔ is_Some (loaded this !! s').
Proof.
  unfold removeTile. destruct (loaded this !! s) as [inner|] eqn:E; [|done].
  destruct (inner !! u) eqn:Eu; [|done]. simpl.
  destruct (decide (s = s')) as [<-|Hs].
  - rewrite lookup_insert_eq, E. split; eauto.
  - by rewrite lookup_insert_ne.
Qed.

(** ** [loadTile] *)

(** The call as a whole, when neither [loadFromImage] nor [serialize] throws:
    the stored object is [dem] as the two calls left it. *)
Lemma loadTile_returns params this :
  thrown (loadTile params this) = None →
  ∃ dem result transferrables,
    lookup2 (loading (state (loadTile params this)))
            (name (source params)) (name (uid params)) = None ∧
    lookup2 (loaded (state (loadTile params this)))
            (name (source params)) (name (uid params)) = Some dem ∧
    calls (loadTile params this) =
      [ {| cb_err := None; cb_result := Some result;
           cb_transferrables := Some transferrables |} ].
Proof.
  unfold loadTile.
  destruct (loadFromImage _ _) as [dem1 [e|]]; [done|].
  destruct (serialize dem1 []) as [[dem2 tr] [e|result]]; [done|].
  intros _. exists dem2, result, tr. simpl. split_and!.
  - apply lookup2_delete2_eq.
  - apply lookup2_set2_eq, set2_is_Some, ensure_is_Some.
  - done.
Qed.

(** Entries other than the tile's are not touched, whether the call returns
    or throws. *)
Lemma loadTile_frame params this s u :
  tile params ≠ (s, u) →
  lookup2 (loading (state (loadTile params this))) s u
    = lookup2 (loading this) s u ∧
  lookup2 (loaded (state (loadTile params this))) s u
    = lookup2 (loaded this) s u.
Proof.
  unfold tile. intros Hne. unfold loadTile.
  destruct (loadFromImage _ _) as [dem1 [e|]]; simpl.
  - by rewrite !lookup2_set2_ne, lookup2_ensure.
  - destruct (serialize dem1 []) as [[dem2 tr] [e|result]]; simpl;
      by rewrite lookup2_delete2_ne, !lookup2_set2_ne, !lookup2_ensure.
Qed.

(** X21.  For a source and a uid that are not names inherited from
    [Object.prototype]: when [loadTile] returns, the tile's uid is gone from
    [loading[source]] and present in [loaded[source]] (so never in both), and
    the callback was invoked exactly once, with a [null] error.  A following
    [removeTile] for the same source and uid removes that entry only: every
    other entry of [loaded], the set of per-source dictionaries and all of
    [loading] stay as they were.  [removeTile] for a tile that is not loaded
    returns the object unchanged. *)
Theorem loadTile_moves_uid_and_removeTile_frames params this :
  let out := loadTile params this in
  let s := name (source params) in
  let u := name (uid params) in
  thrown out = None →
  (lookup2 (loading (state out)) s u = None ∧
   is_Some (lookup2 (loaded (state out)) s u)) ∧
  (∃ result transferrables,
     calls out = [ {| cb_err := None; cb_result := Some result;
                      cb_transferrables := Some transferrables |} ]) ∧
  (let this' := removeTile s u (state out) in
   lookup2 (loaded this') s u = None ∧
   (∀ s' u', (s', u') ≠ (s, u) →
      lookup2 (loaded this') s' u' = lookup2 (loaded (state out)) s' u') ∧
   (∀ s', is_Some (loaded this' !! s') ↔ is_Some (loaded (state out) !! s')) ∧
   loading this' = loading (state out)) ∧
  (∀ that s' u',
     lookup2 (loaded that) s' u' = None → removeTile s' u' that = that).
Proof.
  intros out s u Hret.
  destruct (loadTile_returns params this Hret) as (dem & r & tr & Hl & Hd & Hc).
  cbv zeta. split_and!.
  - exact Hl.
  - subst out s u. rewrite Hd. eauto.
  - eauto.
  - apply removeTile_gone.
  - intros s' u'. apply removeTile_other.
  - intros s'. apply removeTile_sources.
  - apply removeTile_loading.
  - intros that s' u'. apply removeTile_absent.
Qed.

(* --------------------------------------------------------------------- *)
(** ** The worker over a history of calls *)
(* --------------------------------------------------------------------- *)

Set Warnings "-clear-no-such-hyp".

(** The calls a worker source receives.  A call of [loadTile] that throws
    still leaves its writes behind: the next call finds them. *)
Inductive Request : Type :=
| LoadTile (params : TileParameters)
| RemoveTile (source uid : string).

Definition step (this : t) (request : Request) : t :=
  match request with
  | LoadTile params => state (loadTile params this)
  | RemoveTile source uid => removeTile source uid this
  end.

Definition run (history : list Request) (this : t) : t :=
  foldl step this history.

(** Whether [dem.loadFromImage(params.rawImageData)] returns for the tile of
    [params]. *)
Definition image_loads (params : TileParameters) : bool :=
  match (loadFromImage (DEMData_new (name (uid params)))
                       (rawImageData params)).2 with
  | None => true
  | Some _ => false
  end.

(** The tiles a history leaves loaded: those whose image loaded, minus the
    removed ones. *)
Definition loaded_tiles_step (tiles : gset (string * string))
    (request : Request) : gset (string * string) :=
  match request with
  | LoadTile params =>
      if image_loads params then {[ tile params ]} ∪ tiles
      else tiles
  | RemoveTile source uid => tiles ∖ {[ (source, uid) ]}
  end.

(** The tiles a history leaves behind in [loading]: those whose latest
    [loadTile] threw while reading the image. *)
Definition stuck_tiles_step (tiles : gset (string * string))
    (request : Request) : gset (string * string) :=
  match request with
  | LoadTile params =>
      if image_loads params then tiles ∖ {[ tile params ]}
      else {[ tile params ]} ∪ tiles
  | RemoveTile _ _ => tiles
  end.

(** *** One call of [loadTile], case by case *)

Lemma loadTile_image_throws_eq params this dem1 e :
  loadFromImage (DEMData_new (name (uid params))) (rawImageData params)
    = (dem1, Some e) →
  loadTile params this
  = {| state :=
         mk (set2 (set2 (ensure (loading this) (source params))
                        (source params) (uid params)
                        (DEMData_new (name (uid params))))
                  (source params) (uid params) dem1)
            (loaded this);
       calls := []; thrown := Some e |}.
Proof. intros H. unfold loadTile. by rewrite H. Qed.

Lemma loadTile_image_loads_eq params this dem1 :
  loadFromImage (DEMData_new (name (uid params))) (rawImageData params)
    = (dem1, None) →
  ∃ dem2 transferrables ser,
    serialize dem1 [] = (dem2, transferrables, ser)
    ∧ lookup2 (loading (state (loadTile params this)))
              (name (source params)) (name (uid params)) = None
    ∧ lookup2 (loaded (state (loadTile params this)))
              (name (source params)) (name (uid params)) = Some dem2
    ∧ calls (loadTile params this)
      = match ser with
        | inl _ => []
        | inr result =>
            [ {| cb_err := None; cb_result := Some result;
                 cb_transferrables := Some transferrables |} ]
        end
    ∧ thrown (loadTile params this)
      = match ser with inl e => Some e | inr _ => None end.
Proof.
  intros H. unfold loadTile. rewrite H.
  destruct (serialize dem1 []) as [[dem2 tr] ser] eqn:Hser.
  exists dem2, tr, ser. split; [done|].
  destruct ser as [e|result]; simpl; split_and!; try done;
    first [ apply lookup2_delete2_eq
          | apply lookup2_set2_eq, set2_is_Some, ensure_is_Some ].
Qed.

Lemma image_loads_true params :
  image_loads params = true ↔
  ∃ dem1, loadFromImage (DEMData_new (name (uid params))) (rawImageData params)
          = (dem1, None).
Proof.
  unfold image_loads.
  destruct (loadFromImage _ _) as [dem1 [e|]]; simpl.
  - split; [done|]. by intros (? & [= _ ?]).
  - split; [eauto|done].
Qed.

Lemma image_loads_false params :
  image_loads params = false ↔
  ∃ dem1 e,
    loadFromImage (DEMData_new (name (uid params))) (rawImageData params)
    = (dem1, Some e).
Proof.
  unfold image_loads.
  destruct (loadFromImage _ _) as [dem1 [e|]]; simpl.
  - split; [eauto|done].
  - split; [done|]. by intros (? & ? & [= _ ?]).
Qed.

Lemma loadTile_loaded_entry params this s u :
  is_Some (lookup2 (loaded (state (loadTile params this))) s u) ↔
  (image_loads params = true ∧ (s, u) = tile params)
  ∨ is_Some (lookup2 (loaded this) s u).
Proof.
  destruct (decide (tile params = (s, u))) as [Heq|Hne].
  - unfold tile in Heq. injection Heq as <- <-.
    destruct (image_loads params) eqn:Himg.
    + apply image_loads_true in Himg as [dem1 H1].
      destruct (loadTile_image_loads_eq params this dem1 H1)
        as (dem2 & tr & ser & _ & _ & Hd & _).
      rewrite Hd. split; [by left|eauto].
    + apply image_loads_false in Himg as (dem1 & e & H1).
      rewrite (loadTile_image_throws_eq params this dem1 e H1). simpl.
      split; [by right|]. by intros [[? _]|?].
  - destruct (loadTile_frame params this s u Hne) as [_ ->].
    split; [by right|]. intros [[_ Heq]|?]; [|done]. by destruct Hne.
Qed.

Lemma loadTile_loading_entry params this s u :
  is_Some (lookup2 (loading (state (loadTile params this))) s u) ↔
  (image_loads params = false ∧ (s, u) = tile params)
  ∨ ((s, u) ≠ tile params
     ∧ is_Some (lookup2 (loading this) s u)).
Proof.
  destruct (decide (tile params = (s, u))) as [Heq|Hne].
  - unfold tile in Heq. injection Heq as <- <-.
    destruct (image_loads params) eqn:Himg.
    + apply image_loads_true in Himg as [dem1 H1].
      destruct (loadTile_image_loads_eq params this dem1 H1)
        as (dem2 & tr & ser & _ & Hl & _).
      rewrite Hl. split; [by intros []|]. by intros [[? _]|[? _]].
    + apply image_loads_false in Himg as (dem1 & e & H1).
      rewrite (loadTile_image_throws_eq params this dem1 e H1). simpl.
      rewrite lookup2_set2_eq; [split; [by left|eauto]|].
      apply set2_is_Some, ensure_is_Some.
  - destruct (loadTile_frame params this s u Hne) as [-> _].
    split.
    + intros H. right. split; [congruence|done].
    + intros [[_ Heq]|[_ ?]]; [|done]. by destruct Hne.
Qed.

Lemma removeTile_loaded_entry s0 u0 this s u :
  is_Some (lookup2 (loaded (removeTile s0 u0 this)) s u) ↔
  (s, u) ≠ (s0, u0) ∧ is_Some (lookup2 (loaded this) s u).
Proof.
  destruct (decide ((s, u) = (s0, u0))) as [Heq|Hne].
  - injection Heq as -> ->. rewrite removeTile_gone.
    split; [by intros []|]. by intros [? _].
  - rewrite (removeTile_other s0 u0 this s u Hne). by split; [|intros [_ ?]].
Qed.

(** The dictionary of a source in [loaded] after [removeTile]. *)
Lemma removeTile_lookup s u this s' :
  loaded (removeTile s u this) !! s'
  = if decide (s = s') then delete u <$> loaded this !! s'
    else loaded this !! s'.
Proof.
  unfold removeTile. destruct (loaded this !! s) as [inner|] eqn:E.
  - destruct (inner !! u) eqn:Eu; simpl.
    + case_decide as Hs; [subst s'; by rewrite lookup_insert_eq, E|].
      by rewrite lookup_insert_ne.
    + case_decide as Hs; [|done]. subst s'. rewrite E. simpl.
      by rewrite delete_id.
  - case_decide as Hs; [|done]. subst s'. by rewrite E.
Qed.

(** *** The per-source dictionaries *)

Lemma ensure_sources m s s' :
  is_Some (ensure m s !! s') ↔ name s = s' ∨ is_Some (m !! s').
Proof.
  unfold ensure. destruct (m !! name s) eqn:E.
  - split; [by right|]. intros [<-|?]; [by rewrite E|done].
  - destruct (decide (name s = s')) as [<-|Hne].
    + rewrite lookup_insert_eq. split; [by left|eauto].
    + rewrite lookup_insert_ne by done. split; [by right|]. by intros [?|?].
Qed.

Lemma delete2_is_Some m s u s' :
  is_Some (delete2 m s u !! s') ↔ is_Some (m !! s').
Proof.
  unfold delete2. destruct (m !! name s) as [inner|] eqn:E; [|done].
  destruct (decide (name s = s')) as [<-|Hs].
  - rewrite lookup_insert_eq, E. split; eauto.
  - by rewrite lookup_insert_ne.
Qed.

Lemma loadTile_sources_loading params this s :
  is_Some (loading (state (loadTile params this)) !! s) ↔
  name (source params) = s ∨ is_Some (loading this !! s).
Proof.
  unfold loadTile. destruct (loadFromImage _ _) as [dem1 [e|]]; simpl.
  - by rewrite !set2_is_Some, ensure_sources.
  - destruct (serialize dem1 []) as [[dem2 tr] [e|result]]; simpl;
      by rewrite delete2_is_Some, !set2_is_Some, ensure_sources.
Qed.

Lemma loadTile_sources_loaded params this s :
  is_Some (loaded (state (loadTile params this)) !! s) ↔
  (image_loads params = true ∧ name (source params) = s)
  ∨ is_Some (loaded this !! s).
Proof.
  unfold loadTile, image_loads.
  destruct (loadFromImage _ _) as [dem1 [e|]]; simpl.
  - split; [by right|]. by intros [[? _]|?].
  - destruct (serialize dem1 []) as [[dem2 tr] [e|result]]; simpl;
      rewrite !set2_is_Some, ensure_sources; naive_solver.
Qed.

(** *** Properties of single calls

    In each of them the source and the uid of [loadTile] are names that are
    not inherited from [Object.prototype]; the entries spoken of are own
    properties. *)

(** X1.  [loadTile] writes to one tile only: every entry of [loading] and
    of [loaded] under another source or uid is what it was, whether the call
    returns or throws, and no per-source dictionary disappears. *)
Theorem loadTile_touches_one_tile params this :
  (∀ s u, (s, u) ≠ tile params →
     lookup2 (loading (state (loadTile params this))) s u
       = lookup2 (loading this) s u
     ∧ lookup2 (loaded (state (loadTile params this))) s u
       = lookup2 (loaded this) s u)
  ∧ (∀ s, is_Some (loading this !! s) →
          is_Some (loading (state (loadTile params this)) !! s))
  ∧ (∀ s, is_Some (loaded this !! s) →
          is_Some (loaded (state (loadTile params this)) !! s)).
Proof.
  split_and!.
  - intros s u Hne. apply loadTile_frame. congruence.
  - intros s Hs. apply loadTile_sources_loading. by right.
  - intros s Hs. apply loadTile_sources_loaded. by right.
Qed.

(** X2.  When reading the image throws, [loadTile] throws the same
    exception without invoking the callback; [loaded] is untouched, and the
    half-built tile stays in [loading[source][uid]], where no [removeTile]
    reaches it. *)
Theorem loadTile_image_throws params this dem1 e :
  loadFromImage (DEMData_new (name (uid params))) (rawImageData params)
    = (dem1, Some e) →
  let out := loadTile params this in
  thrown out = Some e
  ∧ calls out = []
  ∧ loaded (state out) = loaded this
  ∧ lookup2 (loading (state out)) (name (source params)) (name (uid params))
    = Some dem1
  ∧ ∀ s u,
      lookup2 (loading (removeTile s u (state out)))
              (name (source params)) (name (uid params)) = Some dem1.
Proof.
  intros H. cbv zeta. rewrite (loadTile_image_throws_eq params this dem1 e H).
  simpl. assert (lookup2
    (set2 (set2 (ensure (loading this) (source params)) (source params)
                (uid params) (DEMData_new (name (uid params))))
          (source params) (uid params) dem1)
    (name (source params)) (name (uid params)) = Some dem1) as Hstuck.
  { apply lookup2_set2_eq, set2_is_Some, ensure_is_Some. }
  split_and!; try done.
  intros s u. by rewrite removeTile_loading.
Qed.

(** X3.  When the image loads and [serialize] throws, the tile is already
    registered: it is in [loaded] and no longer in [loading], but the
    callback is never invoked and the exception escapes. *)
Theorem loadTile_serialize_throws params this dem1 dem2 transferrables e :
  loadFromImage (DEMData_new (name (uid params))) (rawImageData params)
    = (dem1, None) →
  serialize dem1 [] = (dem2, transferrables, inl e) →
  let out := loadTile params this in
  thrown out = Some e
  ∧ calls out = []
  ∧ lookup2 (loading (state out)) (name (source params)) (name (uid params))
    = None
  ∧ lookup2 (loaded (state out)) (name (source params)) (name (uid params))
    = Some dem2.
Proof.
  intros H1 H2. cbv zeta.
  destruct (loadTile_image_loads_eq params this dem1 H1)
    as (dem2' & tr' & ser & Hser & Hl & Hd & Hc & Ht).
  rewrite H2 in Hser. injection Hser as <- <- <-. by split_and!.
Qed.

(** X4.  When both calls return, the callback receives [null], the result
    of [serialize] and the very array [serialize] was given, with what it
    pushed onto it; the tile kept in [loaded] is the object as [serialize]
    left it. *)
Theorem loadTile_delivers_serialized params this dem1 dem2 transferrables result :
  loadFromImage (DEMData_new (name (uid params))) (rawImageData params)
    = (dem1, None) →
  serialize dem1 [] = (dem2, transferrables, inr result) →
  let out := loadTile params this in
  thrown out = None
  ∧ calls out = [ {| cb_err := None; cb_result := Some result;
                     cb_transferrables := Some transferrables |} ]
  ∧ lookup2 (loaded (state out)) (name (source params)) (name (uid params))
    = Some dem2.
Proof.
  intros H1 H2. cbv zeta.
  destruct (loadTile_image_loads_eq params this dem1 H1)
    as (dem2' & tr' & ser & Hser & Hl & Hd & Hc & Ht).
  rewrite H2 in Hser. injection Hser as <- <- <-. by split_and!.
Qed.

(** X5.  Loading a tile and removing it again leaves no such tile in
    [loaded] and every other loaded tile as it was, whether the load
    returned or threw. *)
Theorem loadTile_then_removeTile params this s u :
  lookup2
    (loaded (removeTile (name (source params)) (name (uid params))
                        (state (loadTile params this)))) s u
  = if decide ((s, u) = tile params) then None
    else lookup2 (loaded this) s u.
Proof.
  case_decide as Heq.
  - injection Heq as -> ->. apply removeTile_gone.
  - rewrite removeTile_other by done.
    apply loadTile_frame. congruence.
Qed.

(** X6.  [removeTile] is idempotent, and two removals commute. *)
Theorem removeTile_idempotent_commutes s u s' u' this :
  removeTile s u (removeTile s u this) = removeTile s u this
  ∧ removeTile s u (removeTile s' u' this)
    = removeTile s' u' (removeTile s u this).
Proof.
  assert (Hext : ∀ a b : t,
            loading a = loading b →
            (∀ k, loaded a !! k = loaded b !! k) → a = b).
  { intros [la da] [lb db]; simpl. intros -> Hd. f_equal. by apply map_eq. }
  split; apply Hext; rewrite ?removeTile_loading; try done; intros k;
    rewrite !removeTile_lookup.
  - case_decide; [|done]. destruct (loaded this !! k) as [inner|]; [|done].
    simpl. by rewrite delete_delete_eq.
  - repeat case_decide; try done;
      destruct (loaded this !! k) as [inner|]; try done.
    simpl. by rewrite delete_delete.
Qed.

(** *** Properties of histories

    The histories are those of a worker source whose [loadTile] calls all
    name a source and a uid that are not inherited from [Object.prototype];
    [removeTile] may be called with any names. *)

Lemma run_snoc history request this :
  run (history ++ [request]) this = step (run history this) request.
Proof. apply foldl_snoc. Qed.

(** X7.  After any history of calls on a new worker source, the tiles
    stored in [loaded] are exactly those of the [loadTile] calls whose image
    loaded and that no later [removeTile] took out. *)
Theorem loaded_tiles_of_history history s u :
  is_Some (lookup2 (loaded (run history create)) s u) ↔
  (s, u) ∈ foldl loaded_tiles_step ∅ history.
Proof.
  revert s u. induction history as [|request history IH] using rev_ind;
    intros s u.
  - simpl. unfold lookup2. rewrite lookup_empty. simpl.
    rewrite elem_of_empty. split; [by intros []|done].
  - rewrite run_snoc, foldl_snoc. destruct request as [params|s0 u0]; simpl.
    + rewrite loadTile_loaded_entry, IH.
      destruct (image_loads params).
      * rewrite elem_of_union, elem_of_singleton. naive_solver.
      * naive_solver.
    + rewrite removeTile_loaded_entry, IH.
      rewrite elem_of_difference, elem_of_singleton. naive_solver.
Qed.

(** X8.  After any history of calls on a new worker source, the tiles left
    in [loading] are exactly those whose latest [loadTile] threw while
    reading the image: [removeTile] never clears them, only a later
    [loadTile] of the same tile that gets past the image does. *)
Theorem stuck_tiles_of_history history s u :
  is_Some (lookup2 (loading (run history create)) s u) ↔
  (s, u) ∈ foldl stuck_tiles_step ∅ history.
Proof.
  revert s u. induction history as [|request history IH] using rev_ind;
    intros s u.
  - simpl. unfold lookup2. rewrite lookup_empty. simpl.
    rewrite elem_of_empty. split; [by intros []|done].
  - rewrite run_snoc, foldl_snoc. destruct request as [params|s0 u0]; simpl.
    + rewrite loadTile_loading_entry, IH.
      destruct (image_loads params).
      * rewrite elem_of_difference, elem_of_singleton. naive_solver.
      * rewrite elem_of_union, elem_of_singleton.
        destruct (decide ((s, u) = tile params)); naive_solver.
    + by rewrite removeTile_loading, IH.
Qed.

(** X9.  If reading an image never throws, [loading] holds no tile between
    calls, whatever the history. *)
Theorem loading_empty_between_calls history s u :
  (∀ dem image, (loadFromImage dem image).2 = None) →
  lookup2 (loading (run history create)) s u = None.
Proof.
  intros Hnever. revert s u.
  induction history as [|request history IH] using rev_ind; intros s u.
  - simpl. unfold lookup2. by rewrite lookup_empty.
  - rewrite run_snoc. destruct request as [params|s0 u0]; simpl.
    + apply eq_None_not_Some. rewrite loadTile_loading_entry.
      intros [[Himg _]|[_ Hstuck]].
      * unfold image_loads in Himg. by rewrite Hnever in Himg.
      * rewrite IH in Hstuck. by destruct Hstuck.
    + by rewrite removeTile_loading.
Qed.

(** X10.  Per-source dictionaries are created on first use and never
    deleted: [loading] has one of its own for every source a [loadTile] ever
    named, [loaded] for every source of which an image ever loaded, whatever
    was removed since. *)
Theorem sources_of_history history s :
  (is_Some (loading (run history create) !! s) ↔
   ∃ params, LoadTile params ∈ history ∧ name (source params) = s)
  ∧ (is_Some (loaded (run history create) !! s) ↔
     ∃ params, LoadTile params ∈ history ∧ name (source params) = s
               ∧ image_loads params = true).
Proof.
  induction history as [|request history [IHl IHd]] using rev_ind.
  - simpl. rewrite !lookup_empty. split.
    + split; [by intros []|]. intros (? & Hin & _). by apply elem_of_nil in Hin.
    + split; [by intros []|]. intros (? & Hin & _). by apply elem_of_nil in Hin.
  - rewrite run_snoc. destruct request as [params|s0 u0]; simpl; split.
    + rewrite loadTile_sources_loading, IHl. split.
      * intros [<-|(p' & Hin & Hs)].
        -- exists params. split; [apply elem_of_app; right; left|done].
        -- exists p'. split; [apply elem_of_app; by left|done].
      * intros (p' & [Hin|Hin%list_elem_of_singleton]%elem_of_app & Hs).
        -- right. eauto.
        -- left. congruence.
    + rewrite loadTile_sources_loaded, IHd. split.
      * intros [[Himg <-]|(p' & Hin & Hs & Himg)].
        -- exists params. split; [apply elem_of_app; right; left|done].
        -- exists p'. split; [apply elem_of_app; by left|done].
      * intros (p' & [Hin|Hin%list_elem_of_singleton]%elem_of_app & Hs & Himg).
        -- right. eauto.
        -- left. injection Hin as ->. done.
    + rewrite removeTile_loading, IHl. split.
      * intros (p' & Hin & Hs). exists p'. split; [apply elem_of_app; by left|done].
      * intros (p' & [Hin|Hin%list_elem_of_singleton]%elem_of_app & Hs);
          [eauto|done].
    + rewrite removeTile_sources, IHd. split.
      * intros (p' & Hin & Hs). exists p'. split; [apply elem_of_app; by left|done].
      * intros (p' & [Hin|Hin%list_elem_of_singleton]%elem_of_app & Hs);
          [eauto|done].
Qed.

End WorkerSource.

End RasterDEMTileWorkerSource.

(** ** Some keys

    Names that are not inherited on an engine that adds nothing to
    [Object.prototype]. *)
Module Keys.
Import RasterDEMTileWorkerSource.

Abbreviation Key := (RasterDEMTileWorkerSource.Key []).

Definition terrain : Key := key [] "terrain" eq_refl.
Definition seven : Key := key [] "7" eq_refl.
Definition eight : Key := key [] "8" eq_refl.
Definition frozen : Key := key [] "frozen" eq_refl.

(** ["constructor"] and ["__proto__"] name no [Key], whatever the engine
    adds. *)
Example constructor_is_inherited engine_names :
  inherited engine_names "constructor" = true
  ∧ inherited engine_names "__proto__" = true.
Proof. by split. Qed.

End Keys.

(** ** A concrete tile store

    A stand-in for [DEMData] that records the uid and whether the image was
    loaded, enough to run the two methods. *)
Module DEMDemo.
Import RasterDEMTileWorkerSource Keys.

Definition demo_new (uid : string) : string * bool := (uid, false).
Definition demo_load (dem : string * bool) (_ : unit)
  : (string * bool) * option Empty_set := ((dem.1, true), None).
Definition demo_serialize (dem : string * bool) (tr : list string)
  : (string * bool) * list string * (Empty_set + string) :=
  (dem, tr ++ [dem.1], inr dem.1).

Definition demo_loadTile :=
  loadTile demo_new demo_load demo_serialize []
    (Transferable := string).

Definition demo_params : TileParameters [] :=
  {| source := terrain; uid := seven; rawImageData := tt |}.

Example demo_loadTile_loaded :
  lookup2 (loaded (state (demo_loadTile demo_params create))) "terrain" "7"
  = Some ("7", true).
Proof. vm_compute. reflexivity. Qed.

Example demo_loadTile_loading :
  loading (state (demo_loadTile demo_params create)) !! "terrain" = Some ∅.
Proof. vm_compute. reflexivity. Qed.

Lemma loadTile_moves_uid_at_terrain_7 :
  let out := demo_loadTile demo_params create in
  thrown out = None ∧
  lookup2 (loading (state out)) "terrain" "7" = None ∧
  is_Some (lookup2 (loaded (state out)) "terrain" "7").
Proof.
  split; [reflexivity|].
  apply (loadTile_moves_uid_and_removeTile_frames
           demo_new demo_load demo_serialize [] demo_params create).
  reflexivity.
Defined.

(** A history that loads two tiles and removes the first again. *)
Definition demo_history : list (Request [] (RGBAImage := unit)) :=
  [ LoadTile [] demo_params;
    LoadTile []
      {| source := terrain; uid := eight; rawImageData := tt |};
    RemoveTile [] "terrain" "7" ].

Lemma loading_empty_after_demo_history :
  lookup2
    (loading (run demo_new demo_load demo_serialize []
                  demo_history create))
    "terrain" "8" = None.
Proof.
  apply (loading_empty_between_calls demo_new demo_load demo_serialize
           [] demo_history "terrain" "8").
  reflexivity.
Defined.

Lemma loadTile_delivers_at_terrain_7 :
  let out := demo_loadTile demo_params create in
  thrown out = None
  ∧ calls out = [ {| cb_err := None; cb_result := Some "7";
                     cb_transferrables := Some ["7"] |} ]
  ∧ lookup2 (loaded (state out)) "terrain" "7" = Some ("7", true).
Proof.
  apply (loadTile_delivers_serialized demo_new demo_load demo_serialize
           [] demo_params create ("7", true) ("7", true) ["7"] "7");
    reflexivity.
Defined.

End DEMDemo.

(** ** A tile store that can fail

    Reading an image fails on a malformed image, and the tile named
    ["frozen"] cannot be serialized. *)
Module DEMFaulty.
Import RasterDEMTileWorkerSource Keys.

Definition faulty_new (uid : string) : string * bool := (uid, false).
Definition faulty_load (dem : string * bool) (wellFormed : bool)
  : (string * bool) * option string :=
  if wellFormed then ((dem.1, true), None)
  else (dem, Some "out of range source coordinates for DEM data").
Definition faulty_serialize (dem : string * bool) (tr : list string)
  : (string * bool) * list string * (string + string) :=
  if String.eqb dem.1 "frozen" then (dem, tr, inl "cannot serialize")
  else (dem, tr ++ [dem.1], inr dem.1).

Definition malformed : TileParameters [] :=
  {| source := terrain; uid := seven; rawImageData := false |}.

Definition frozen_tile : TileParameters [] :=
  {| source := terrain; uid := frozen; rawImageData := true |}.

(** A malformed tile gets stuck in [loading]; removing it does not help,
    loading it again from a well-formed image does. *)
Example stuck_then_reloaded :
  let run := run faulty_new faulty_load faulty_serialize [] in
  lookup2 (loading (run [LoadTile [] malformed;
                         RemoveTile [] "terrain" "7"] create))
          "terrain" "7" = Some ("7", false)
  ∧ lookup2
      (loading (run [LoadTile [] malformed;
                     LoadTile []
                       {| source := terrain; uid := seven;
                          rawImageData := true |}] create))
      "terrain" "7" = None.
Proof. vm_compute. done. Qed.

Lemma loadTile_image_throws_at_malformed :
  let out :=
    loadTile faulty_new faulty_load faulty_serialize [] malformed
             create in
  thrown out = Some "out of range source coordinates for DEM data"
  ∧ calls out = []
  ∧ loaded (state out) = loaded create
  ∧ lookup2 (loading (state out)) "terrain" "7" = Some ("7", false)
  ∧ ∀ s u,
      lookup2 (loading (removeTile s u (state out))) "terrain" "7"
      = Some ("7", false).
Proof.
  apply (loadTile_image_throws faulty_new faulty_load faulty_serialize
           [] malformed create ("7", false)
           "out of range source coordinates for DEM data").
  reflexivity.
Defined.

Lemma loadTile_serialize_throws_at_frozen :
  let out :=
    loadTile faulty_new faulty_load faulty_serialize [] frozen_tile
             create in
  thrown out = Some "cannot serialize"
  ∧ calls out = []
  ∧ lookup2 (loading (state out)) "terrain" "frozen" = None
  ∧ lookup2 (loaded (state out)) "terrain" "frozen" = Some ("frozen", true).
Proof.
  apply (loadTile_serialize_throws faulty_new faulty_load faulty_serialize
           [] frozen_tile create ("frozen", true) ("frozen", true) []
           "cannot serialize");
    reflexivity.
Defined.

End DEMFaulty.

(* ===================================================================== *)
(** * symbol/quads.js: [getIconQuads] *)
(* ===================================================================== *)

(** [Point] of the [@mapbox/point-geometry] package: the constructor and the
    one method the icon path calls.  [_matMult] updates the point in place;
    here it returns the updated point. *)
Module Point.
Record t := mk { x : float; y : float }.

(** [m] is the row-major 2x2 matrix [[m0, m1, m2, m3]]. *)
Definition _matMult (p : t) (m : float * float * float * float) : t :=
  let '(m0, m1, m2, m3) := m in
  let x' := (m0 * x p + m1 * y p)%float in
  let y' := (m2 * x p + m3 * y p)%float in
  mk x' y'.
End Point.

(** A texture rectangle [{x, y, w, h}]. *)
Module Rect.
Record t := mk { x : float; y : float; w : float; h : float }.
End Rect.

Module Quads.
Local Open Scope float_scope.

(** Reading a numeric array at an index: past the end JavaScript yields
    [undefined], which arithmetic turns into [NaN]. *)
Definition at_index (a : list float) (i : nat) : float := nth i a nan.

(** Truthiness of a number: [0], [-0] and [NaN] are falsy. *)
Definition truthy (v : float) : bool := negb ((v =? 0) || is_nan v).

(** [Math.PI] *)
Definition Math_PI : float := 0x1.921fb54442d18p+1.

(** The sprite image of an icon, as far as the function reads it. *)
Record SpriteImage := {
  pixelRatio : float;
  textureRect : Rect.t
}.

(** [PositionedIcon] (symbol/shaping.js) *)
Record PositionedIcon := {
  image : SpriteImage;
  top : float;
  bottom : float;
  left : float;
  right : float
}.

(** [Shaping] (symbol/shaping.js): the bounding box of the shaped text. *)
Record Shaping := {
  text_top : float;
  text_bottom : float;
  text_left : float;
  text_right : float
}.

(** The layout properties read through [layer.layout[...]]. *)
Record Layout := {
  icon_text_fit : string;
  text_size : float;
  icon_text_fit_padding : list float
}.

(** [SymbolQuad]; [writingMode: undefined] is [None]. *)
Record SymbolQuad := {
  tl : Point.t;
  tr : Point.t;
  bl : Point.t;
  br : Point.t;
  tex : Rect.t;
  writingMode : option nat;
  glyphOffset : float * float
}.

Section GetIconQuads.

(** [Math.sin] and [Math.cos] are implementation-approximated by the
    language standard; the style layer class and the types of the arguments
    the function only passes along are not part of this file. *)
Variables Math_sin Math_cos : float → float.
Context {Anchor GlobalProperties Feature : Type}.

Record StyleLayer := {
  layout : Layout;
  getLayoutValue : string → GlobalProperties → Feature → float
}.

Definition getIconQuads
    (anchor : Anchor) (shapedIcon : PositionedIcon) (layer : StyleLayer)
    (alongLine : bool) (shapedText : option Shaping)
    (globalProperties : GlobalProperties) (feature : Feature)
  : list SymbolQuad :=
  let image := image shapedIcon in
  let layout := layout layer in
  let border := 1 in
  let top := top shapedIcon - border / pixelRatio image in
  let left := left shapedIcon - border / pixelRatio image in
  let bottom := bottom shapedIcon + border / pixelRatio image in
  let right := right shapedIcon + border / pixelRatio image in
  let '(tl, tr, br, bl) :=
    match negb (String.eqb (icon_text_fit layout) "none"), shapedText with
    | true, Some shapedText =>
        let iconWidth := right - left in
        let iconHeight := bottom - top in
        let size := text_size layout / 24 in
        let textLeft := text_left shapedText * size in
        let textRight := text_right shapedText * size in
        let textTop := text_top shapedText * size in
        let textBottom := text_bottom shapedText * size in
        let textWidth := textRight - textLeft in
        let textHeight := textBottom - textTop in
        let padT := at_index (icon_text_fit_padding layout) 0 in
        let padR := at_index (icon_text_fit_padding layout) 1 in
        let padB := at_index (icon_text_fit_padding layout) 2 in
        let padL := at_index (icon_text_fit_padding layout) 3 in
        let offsetY :=
          if String.eqb (icon_text_fit layout) "width"
          then (textHeight - iconHeight) * 0.5 else 0 in
        let offsetX :=
          if String.eqb (icon_text_fit layout) "height"
          then (textWidth - iconWidth) * 0.5 else 0 in
        let width :=
          if String.eqb (icon_text_fit layout) "width"
             || String.eqb (icon_text_fit layout) "both"
          then textWidth else iconWidth in
        let height :=
          if String.eqb (icon_text_fit layout) "height"
             || String.eqb (icon_text_fit layout) "both"
          then textHeight else iconHeight in
        (Point.mk (textLeft + offsetX - padL) (textTop + offsetY - padT),
         Point.mk (textLeft + offsetX + padR + width) (textTop + offsetY - padT),
         Point.mk (textLeft + offsetX + padR + width)
                  (textTop + offsetY + padB + height),
         Point.mk (textLeft + offsetX - padL)
                  (textTop + offsetY + padB + height))
    | _, _ =>
        (Point.mk left top, Point.mk right top,
         Point.mk right bottom, Point.mk left bottom)
    end in
  let angle :=
    getLayoutValue layer "icon-rotate" globalProperties feature
    * Math_PI / 180 in
  let '(tl, tr, bl, br) :=
    if truthy angle then
      let sin := Math_sin angle in
      let cos := Math_cos angle in
      let matrix := (cos, - sin, sin, cos) in
      (Point._matMult tl matrix, Point._matMult tr matrix,
       Point._matMult bl matrix, Point._matMult br matrix)
    else (tl, tr, bl, br) in
  let textureRect :=
    Rect.mk (Rect.x (textureRect image) - border)
            (Rect.y (textureRect image) - border)
            (Rect.w (textureRect image) + border * 2)
            (Rect.h (textureRect image) + border * 2) in
  [ {| tl := tl; tr := tr; bl := bl; br := br; tex := textureRect;
       writingMode := None; glyphOffset := (0, 0) |} ].

(** The texture rectangle of an image, one unit wider on each side. *)
Definition padded (r : Rect.t) : Rect.t :=
  Rect.mk (Rect.x r - 1) (Rect.y r - 1) (Rect.w r + 2) (Rect.h r + 2).

(** C9.  Whatever the anchor, the shaped icon, the layer (its text-fit mode
    and rotation), the shaped text and the feature, [getIconQuads] returns
    exactly one quad, and the quad's texture rectangle is the icon's texture
    rectangle padded by one unit on each side. *)
Theorem getIconQuads_one_padded_quad
    (anchor : Anchor) (shapedIcon : PositionedIcon) (layer : StyleLayer)
    (alongLine : bool) (shapedText : option Shaping)
    (globalProperties : GlobalProperties) (feature : Feature) :
  ∃ quad,
    getIconQuads anchor shapedIcon layer alongLine shapedText
                 globalProperties feature = [quad]
    ∧ tex quad = padded (textureRect (image shapedIcon)).
Proof.
  unfold getIconQuads.
  destruct (match negb (String.eqb (icon_text_fit (layout layer)) "none"),
                  shapedText with
            | true, Some _ => _ | _, _ => _ end) as [[[ptl ptr] pbr] pbl].
  destruct (truthy _); eexists; (split; [reflexivity|]); reflexivity.
Qed.

(** An unrotated 10x10 icon at pixel ratio 2 whose sprite sits at (20, 30):
    the quad is half a unit wider on each side, the texture rectangle one
    unit. *)
Example getIconQuads_plain (a : Anchor) (g : GlobalProperties) (f : Feature) :
  getIconQuads a
    {| image := {| pixelRatio := 2; textureRect := Rect.mk 20 30 10 10 |};
       top := -5; bottom := 5; left := -5; right := 5 |}
    {| layout := {| icon_text_fit := "none"; text_size := 16;
                    icon_text_fit_padding := [0; 0; 0; 0] |};
       getLayoutValue := fun _ _ _ => 0 |}
    false None g f
  = [ {| tl := Point.mk (-5.5) (-5.5); tr := Point.mk 5.5 (-5.5);
         bl := Point.mk (-5.5) 5.5; br := Point.mk 5.5 5.5;
         tex := Rect.mk 19 29 12 12;
         writingMode := None; glyphOffset := (0, 0) |} ].
Proof. reflexivity. Qed.

(** The same icon fitted to a text box of 48x24 units at text size 24, with
    a padding of 1 all around: the corners follow the text, the texture
    rectangle does not change. *)
Example getIconQuads_text_fit (a : Anchor) (g : GlobalProperties) (f : Feature) :
  getIconQuads a
    {| image := {| pixelRatio := 2; textureRect := Rect.mk 20 30 10 10 |};
       top := -5; bottom := 5; left := -5; right := 5 |}
    {| layout := {| icon_text_fit := "both"; text_size := 24;
                    icon_text_fit_padding := [1; 1; 1; 1] |};
       getLayoutValue := fun _ _ _ => 0 |}
    false
    (Some {| text_top := -12; text_bottom := 12;
             text_left := -24; text_right := 24 |})
    g f
  = [ {| tl := Point.mk (-25) (-13); tr := Point.mk 25 (-13);
         bl := Point.mk (-25) 13; br := Point.mk 25 13;
         tex := Rect.mk 19 29 12 12;
         writingMode := None; glyphOffset := (0, 0) |} ].
Proof. reflexivity. Qed.

(** A rotation by 90 degrees sends every corner through [_matMult]. *)
Example getIconQuads_rotated (a : Anchor) (g : GlobalProperties) (f : Feature) :
  let angle := 90 * Math_PI / 180 in
  let m := (Math_cos angle, - Math_sin angle, Math_sin angle, Math_cos angle) in
  getIconQuads a
    {| image := {| pixelRatio := 1; textureRect := Rect.mk 0 0 4 4 |};
       top := -2; bottom := 2; left := -2; right := 2 |}
    {| layout := {| icon_text_fit := "none"; text_size := 16;
                    icon_text_fit_padding := [] |};
       getLayoutValue := fun _ _ _ => 90 |}
    true None g f
  = [ {| tl := Point._matMult (Point.mk (-3) (-3)) m;
         tr := Point._matMult (Point.mk 3 (-3)) m;
         bl := Point._matMult (Point.mk (-3) 3) m;
         br := Point._matMult (Point.mk 3 3) m;
         tex := Rect.mk (-1) (-1) 6 6;
         writingMode := None; glyphOffset := (0, 0) |} ].
Proof. reflexivity. Qed.

(* --------------------------------------------------------------------- *)
(** ** [getGlyphQuads] *)
(* --------------------------------------------------------------------- *)

(** [GLYPH_PBF_BORDER] comes from [style/parse_glyph_pbf], which is not at
    hand: a parameter. *)
Variable GLYPH_PBF_BORDER : float.

(** [_rotateAround(angle, p)] and [_add(p)] of [Point], the two other
    methods of the package that this file calls. *)
Definition Point_rotateAround (this : Point.t) (angle : float) (p : Point.t)
  : Point.t :=
  let cos := Math_cos angle in
  let sin := Math_sin angle in
  let x := Point.x p + cos * (Point.x this - Point.x p)
           - sin * (Point.y this - Point.y p) in
  let y := Point.y p + sin * (Point.x this - Point.x p)
           + cos * (Point.y this - Point.y p) in
  Point.mk x y.

Definition Point_add (this p : Point.t) : Point.t :=
  Point.mk (Point.x this + Point.x p) (Point.y this + Point.y p).

(** [glyph.metrics], as far as the function reads it. *)
Record GlyphMetrics := {
  glyph_left : float;
  glyph_top : float;
  advance : float
}.

(** [GlyphPosition] (render/glyph_atlas.js); [rect] may be [null]. *)
Record GlyphPosition := {
  rect : option Rect.t;
  metrics : GlyphMetrics
}.

(** An element of [shaping.positionedGlyphs]. *)
Record PositionedGlyph := {
  glyph : nat;
  x : float;
  y : float;
  vertical : bool
}.

(** [Shaping], as far as [getGlyphQuads] reads it. *)
Record TextShaping := {
  positionedGlyphs : list PositionedGlyph;
  shaping_writingMode : option nat
}.

(** The layer of a text label.  [getLayoutValue] yields a number for
    ['text-rotate'], as it does for ['icon-rotate'], and a pair of numbers
    for ['text-offset']: the second reading has a field of its own. *)
Record TextLayer := {
  numeric : StyleLayer;
  getTextOffset : GlobalProperties → Feature → list float
}.

(** The body of the loop over [positionedGlyphs]: the quad pushed for one
    glyph, [None] where the loop [continue]s. *)
Definition glyphQuad (shaping : TextShaping) (alongLine : bool)
    (positions : gmap nat GlyphPosition) (textRotate : float)
    (textOffset : list float) (positionedGlyph : PositionedGlyph)
  : option SymbolQuad :=
  match positions !! glyph positionedGlyph with
  | None => None
  | Some glyph =>
      match rect glyph with
      | None => None
      | Some rect =>
          let glyphPadding := 1.0 in
          let rectBuffer := GLYPH_PBF_BORDER + glyphPadding in
          let halfAdvance := advance (metrics glyph) / 2 in
          let glyphOffset :=
            if alongLine
            then (x positionedGlyph + halfAdvance, y positionedGlyph)
            else (0, 0) in
          let builtInOffset :=
            if alongLine then (0, 0)
            else (x positionedGlyph + halfAdvance + at_index textOffset 0,
                  y positionedGlyph + at_index textOffset 1) in
          let x1 := glyph_left (metrics glyph) - rectBuffer - halfAdvance
                    + builtInOffset.1 in
          let y1 := - glyph_top (metrics glyph) - rectBuffer
                    + builtInOffset.2 in
          let x2 := x1 + Rect.w rect in
          let y2 := y1 + Rect.h rect in
          let tl := Point.mk x1 y1 in
          let tr := Point.mk x2 y1 in
          let bl := Point.mk x1 y2 in
          let br := Point.mk x2 y2 in
          let '(tl, tr, bl, br) :=
            if alongLine && vertical positionedGlyph then
              let center := Point.mk (- halfAdvance) halfAdvance in
              let verticalRotation := - Math_PI / 2 in
              let xOffsetCorrection := Point.mk 5 0 in
              (Point_add (Point_rotateAround tl verticalRotation center)
                         xOffsetCorrection,
               Point_add (Point_rotateAround tr verticalRotation center)
                         xOffsetCorrection,
               Point_add (Point_rotateAround bl verticalRotation center)
                         xOffsetCorrection,
               Point_add (Point_rotateAround br verticalRotation center)
                         xOffsetCorrection)
            else (tl, tr, bl, br) in
          let '(tl, tr, bl, br) :=
            if truthy textRotate then
              let sin := Math_sin textRotate in
              let cos := Math_cos textRotate in
              let matrix := (cos, - sin, sin, cos) in
              (Point._matMult tl matrix, Point._matMult tr matrix,
               Point._matMult bl matrix, Point._matMult br matrix)
            else (tl, tr, bl, br) in
          Some {| tl := tl; tr := tr; bl := bl; br := br; tex := rect;
                  writingMode := shaping_writingMode shaping;
                  glyphOffset := glyphOffset |}
      end
  end.

(** [getGlyphQuads]: the loop pushes the quads in the order of the
    glyphs. *)
Definition getGlyphQuads
    (anchor : Anchor) (shaping : TextShaping) (layer : TextLayer)
    (alongLine : bool) (globalProperties : GlobalProperties)
    (feature : Feature) (positions : gmap nat GlyphPosition)
  : list SymbolQuad :=
  let oneEm := 24 in
  let textRotate :=
    getLayoutValue (numeric layer) "text-rotate" globalProperties feature
    * Math_PI / 180 in
  let textOffset :=
    map (λ t, t * oneEm) (getTextOffset layer globalProperties feature) in
  let positionedGlyphs := positionedGlyphs shaping in
  foldl (λ quads positionedGlyph,
           match glyphQuad shaping alongLine positions textRotate textOffset
                           positionedGlyph with
           | None => quads
           | Some quad => quads ++ [quad]
           end)
        [] positionedGlyphs.

(** The rectangle in the atlas of a positioned glyph, if it has one. *)
Definition atlasRect (positions : gmap nat GlyphPosition)
    (positionedGlyph : PositionedGlyph) : option Rect.t :=
  positions !! glyph positionedGlyph ≫= rect.

(** *** The loop as a filter over the glyphs *)

Lemma foldl_push {A B} (g : A → option B) (acc : list B) (l : list A) :
  foldl (λ acc a, match g a with None => acc | Some b => acc ++ [b] end) acc l
  = acc ++ omap g l.
Proof.
  revert acc. induction l as [|a l IH]; intros acc; simpl.
  - by rewrite app_nil_r.
  - rewrite IH. destruct (g a); [|done]. by rewrite <- app_assoc.
Qed.

Lemma getGlyphQuads_omap anchor shaping layer alongLine globalProperties
    feature positions :
  getGlyphQuads anchor shaping layer alongLine globalProperties feature
                positions
  = omap (glyphQuad shaping alongLine positions
            (getLayoutValue (numeric layer) "text-rotate" globalProperties
                            feature * Math_PI / 180)
            (map (λ t, t * 24)
                 (getTextOffset layer globalProperties feature)))
         (positionedGlyphs shaping).
Proof. unfold getGlyphQuads. by rewrite foldl_push. Qed.

(** What every quad of the loop body carries, whatever the rotations. *)
Lemma glyphQuad_Some shaping alongLine positions textRotate textOffset pg quad :
  glyphQuad shaping alongLine positions textRotate textOffset pg = Some quad →
  atlasRect positions pg = Some (tex quad)
  ∧ writingMode quad = shaping_writingMode shaping
  ∧ glyphOffset quad
    = (if alongLine
       then match positions !! glyph pg with
            | Some g => (x pg + advance (metrics g) / 2, y pg)
            | None => (0, 0)
            end
       else (0, 0)).
Proof.
  unfold glyphQuad, atlasRect.
  destruct (positions !! glyph pg) as [g|]; [|done]. simpl.
  destruct (rect g) as [r|]; [|done].
  destruct (alongLine && vertical pg); destruct (truthy textRotate);
    intros [= <-]; simpl; by destruct alongLine.
Qed.

Lemma glyphQuad_None shaping alongLine positions textRotate textOffset pg :
  glyphQuad shaping alongLine positions textRotate textOffset pg = None ↔
  atlasRect positions pg = None.
Proof.
  unfold glyphQuad, atlasRect.
  destruct (positions !! glyph pg) as [g|]; [|done]. simpl.
  destruct (rect g) as [r|]; [|done].
  by destruct (alongLine && vertical pg); destruct (truthy textRotate).
Qed.

(** X11.  [getGlyphQuads] makes one quad for each positioned glyph that has
    a position with a rectangle in the atlas, in the order of the glyphs,
    and textures it with exactly that rectangle; glyphs without a position
    or without a rectangle are skipped. *)
Theorem getGlyphQuads_textures anchor shaping layer alongLine globalProperties
    feature positions :
  tex <$> getGlyphQuads anchor shaping layer alongLine globalProperties
                        feature positions
  = omap (atlasRect positions) (positionedGlyphs shaping).
Proof.
  rewrite getGlyphQuads_omap.
  induction (positionedGlyphs shaping) as [|pg glyphs IH]; simpl; [done|].
  destruct (glyphQuad _ _ _ _ _ pg) as [quad|] eqn:Hq.
  - apply glyphQuad_Some in Hq as (Hrect & _).
    rewrite Hrect, fmap_cons. by f_equal.
  - apply glyphQuad_None in Hq. by rewrite Hq.
Qed.

(** X12.  Every glyph quad carries the writing mode of the shaping, and a
    glyph offset that is zero unless the label runs along a line. *)
Theorem getGlyphQuads_mode_and_offset anchor shaping layer alongLine
    globalProperties feature positions :
  Forall (λ quad,
            writingMode quad = shaping_writingMode shaping
            ∧ (alongLine = false → glyphOffset quad = (0, 0)))
         (getGlyphQuads anchor shaping layer alongLine globalProperties
                        feature positions).
Proof.
  rewrite getGlyphQuads_omap. apply Forall_forall. intros quad Hin.
  apply list_elem_of_omap in Hin as (pg & _ & Hq).
  apply glyphQuad_Some in Hq as (_ & Hmode & Hoff).
  split; [done|]. intros ->. exact Hoff.
Qed.

(** X13.  The quads of a run of glyphs are the quads of its first part
    followed by the quads of the rest: no glyph's quad depends on another
    glyph. *)
Theorem getGlyphQuads_app anchor glyphs1 glyphs2 mode layer alongLine
    globalProperties feature positions :
  getGlyphQuads anchor
    {| positionedGlyphs := glyphs1 ++ glyphs2; shaping_writingMode := mode |}
    layer alongLine globalProperties feature positions
  = getGlyphQuads anchor
      {| positionedGlyphs := glyphs1; shaping_writingMode := mode |}
      layer alongLine globalProperties feature positions
    ++ getGlyphQuads anchor
         {| positionedGlyphs := glyphs2; shaping_writingMode := mode |}
         layer alongLine globalProperties feature positions.
Proof. rewrite !getGlyphQuads_omap. simpl. apply omap_app. Qed.

(** A glyph with its [vertical] flag cleared. *)
Definition horizontal (pg : PositionedGlyph) : PositionedGlyph :=
  {| glyph := glyph pg; x := x pg; y := y pg; vertical := false |}.

Lemma omap_fmap_pointwise {A B C} (f : B → option C) (g : A → option C)
    (h : A → B) (l : list A) :
  (∀ a, f (h a) = g a) → omap f (h <$> l) = omap g l.
Proof.
  intros Hfg. induction l as [|a l IH]; [done|].
  csimpl. by rewrite Hfg, IH.
Qed.

Lemma omap_pointwise {A C} (f g : A → option C) (l : list A) :
  (∀ a, f a = g a) → omap f l = omap g l.
Proof.
  intros Hfg. induction l as [|a l IH]; [done|].
  csimpl. by rewrite Hfg, IH.
Qed.

Lemma glyphQuad_along_line shaping positions textRotate offset1 offset2 pg :
  glyphQuad shaping true positions textRotate offset1 pg
  = glyphQuad shaping true positions textRotate offset2 pg.
Proof. reflexivity. Qed.

Lemma glyphQuad_horizontal shaping1 shaping2 positions textRotate offset pg :
  shaping_writingMode shaping1 = shaping_writingMode shaping2 →
  glyphQuad shaping2 false positions textRotate offset (horizontal pg)
  = glyphQuad shaping1 false positions textRotate offset pg.
Proof. intros Hmode. unfold glyphQuad. simpl. by rewrite Hmode. Qed.

(** X14.  What a label does not depend on: along a line the text offset is
    not applied, and off a line the [vertical] flags of the glyphs are not
    read. *)
Theorem getGlyphQuads_ignores anchor glyphs mode layout offset1 offset2
    globalProperties feature positions :
  getGlyphQuads anchor
    {| positionedGlyphs := glyphs; shaping_writingMode := mode |}
    {| numeric := layout; getTextOffset := offset1 |}
    true globalProperties feature positions
  = getGlyphQuads anchor
      {| positionedGlyphs := glyphs; shaping_writingMode := mode |}
      {| numeric := layout; getTextOffset := offset2 |}
      true globalProperties feature positions
  ∧ getGlyphQuads anchor
      {| positionedGlyphs := glyphs; shaping_writingMode := mode |}
      {| numeric := layout; getTextOffset := offset1 |}
      false globalProperties feature positions
    = getGlyphQuads anchor
        {| positionedGlyphs := horizontal <$> glyphs;
           shaping_writingMode := mode |}
        {| numeric := layout; getTextOffset := offset1 |}
        false globalProperties feature positions.
Proof.
  rewrite !getGlyphQuads_omap. simpl. split.
  - apply omap_pointwise. intros pg. apply glyphQuad_along_line.
  - symmetry. apply omap_fmap_pointwise. intros pg.
    by apply glyphQuad_horizontal.
Qed.

(** X15.  When the text is not rotated and does not run along a line,
    every glyph quad is an upright box: its top right, bottom left and
    bottom right corners are the top left corner moved by the width, the
    height, or both, of the glyph's rectangle in the atlas. *)
Theorem getGlyphQuads_upright anchor shaping layer globalProperties feature
    positions :
  truthy (getLayoutValue (numeric layer) "text-rotate" globalProperties
                         feature * Math_PI / 180) = false →
  Forall (λ quad,
            tr quad = Point.mk (Point.x (tl quad) + Rect.w (tex quad))
                               (Point.y (tl quad))
            ∧ bl quad = Point.mk (Point.x (tl quad))
                                 (Point.y (tl quad) + Rect.h (tex quad))
            ∧ br quad = Point.mk (Point.x (tr quad)) (Point.y (bl quad)))
         (getGlyphQuads anchor shaping layer false globalProperties feature
                        positions).
Proof.
  intros Hrot. rewrite getGlyphQuads_omap. apply Forall_forall.
  intros quad Hin. apply list_elem_of_omap in Hin as (pg & _ & Hq).
  unfold glyphQuad in Hq. rewrite Hrot in Hq.
  destruct (positions !! glyph pg) as [g|]; [|done].
  destruct (rect g) as [r|]; [|done]. simpl in Hq.
  by injection Hq as <-.
Qed.

(** *** What an icon quad does not depend on *)

(** X16.  Without text to fit to (['icon-text-fit'] is ['none'], or there
    is no shaped text), the icon's quad is that of the icon alone: the
    shaped text, the text size and the padding are not read. *)
Theorem getIconQuads_ignores_text anchor shapedIcon layer alongLine shapedText
    globalProperties feature :
  icon_text_fit (layout layer) = "none" ∨ shapedText = None →
  getIconQuads anchor shapedIcon layer alongLine shapedText globalProperties
               feature
  = getIconQuads anchor shapedIcon
      {| layout := {| icon_text_fit := "none"; text_size := 0;
                      icon_text_fit_padding := [] |};
         getLayoutValue := getLayoutValue layer |}
      alongLine None globalProperties feature.
Proof.
  unfold getIconQuads. intros [Hfit | ->]; simpl.
  - by rewrite Hfit.
  - by destruct (negb (String.eqb (icon_text_fit (layout layer)) "none")).
Qed.

(** X17.  In the text-fit mode ['both'] the corners come from the text
    alone: two icons with the same texture rectangle get the same quad,
    whatever their own boxes and pixel ratios. *)
Theorem getIconQuads_fit_both anchor icon1 icon2 layer alongLine text
    globalProperties feature :
  icon_text_fit (layout layer) = "both" →
  textureRect (image icon1) = textureRect (image icon2) →
  getIconQuads anchor icon1 layer alongLine (Some text) globalProperties feature
  = getIconQuads anchor icon2 layer alongLine (Some text) globalProperties
                 feature.
Proof.
  intros Hfit Htex. unfold getIconQuads. by rewrite Hfit, Htex.
Qed.

End GetIconQuads.
End Quads.

(** ** A label and an icon to run the two functions on

    The runs below do not rotate anything, so the sine and the cosine are
    never called; they are given a constant function. *)
Module QuadsDemo.
Import Quads.
Local Open Scope float_scope.

Definition unused_trig (angle : float) : float := nan.

(** [A] sits in the atlas, [B] has a position without a rectangle, and the
    third glyph has no position at all. *)
Definition demo_positions : gmap nat GlyphPosition :=
  {[ 65%nat := {| rect := Some (Rect.mk 0 0 10 12);
                  metrics := {| glyph_left := 1; glyph_top := 10;
                                advance := 8 |} |};
     66%nat := {| rect := None;
                  metrics := {| glyph_left := 1; glyph_top := 10;
                                advance := 8 |} |} ]}.

Definition demo_shaping : TextShaping :=
  {| positionedGlyphs :=
       [ {| glyph := 65; x := 0; y := -17; vertical := false |};
         {| glyph := 66; x := 8; y := -17; vertical := false |};
         {| glyph := 67; x := 16; y := -17; vertical := false |} ];
     shaping_writingMode := Some 1%nat |}.

Definition demo_layer : TextLayer (GlobalProperties := unit) (Feature := unit) :=
  {| numeric :=
       {| layout := {| icon_text_fit := "none"; text_size := 16;
                       icon_text_fit_padding := [0; 0; 0; 0] |};
          getLayoutValue := λ _ _ _, 0 |};
     getTextOffset := λ _ _, [0; 0.5] |}.

Definition demo_glyphQuads : list SymbolQuad :=
  getGlyphQuads unused_trig unused_trig 3 (Anchor := unit)
                tt demo_shaping demo_layer false tt tt demo_positions.

(** Only [A] gets a quad: 10 by 12 units, its left edge 3 units (the
    border and the padding, less the glyph's bearing) before the pen, and
    moved half an em down by the text offset. *)
Example demo_glyphQuads_value :
  demo_glyphQuads
  = [ {| tl := Point.mk (-3) (-19); tr := Point.mk 7 (-19);
         bl := Point.mk (-3) (-7); br := Point.mk 7 (-7);
         tex := Rect.mk 0 0 10 12;
         writingMode := Some 1%nat; glyphOffset := (0, 0) |} ].
Proof. vm_compute. reflexivity. Qed.

Lemma upright_at_demo_label :
  Forall (λ quad,
            tr quad = Point.mk (Point.x (tl quad) + Rect.w (tex quad))
                               (Point.y (tl quad))
            ∧ bl quad = Point.mk (Point.x (tl quad))
                                 (Point.y (tl quad) + Rect.h (tex quad))
            ∧ br quad = Point.mk (Point.x (tr quad)) (Point.y (bl quad)))
         demo_glyphQuads.
Proof.
  apply (getGlyphQuads_upright unused_trig unused_trig 3
           tt demo_shaping demo_layer tt tt demo_positions).
  reflexivity.
Defined.

Definition demo_icon : PositionedIcon :=
  {| image := {| pixelRatio := 2; textureRect := Rect.mk 20 30 10 10 |};
     top := -5; bottom := 5; left := -5; right := 5 |}.

Definition demo_text : Shaping :=
  {| text_top := -12; text_bottom := 12; text_left := -24; text_right := 24 |}.

Definition fit_layer (mode : string)
  : StyleLayer (GlobalProperties := unit) (Feature := unit) :=
  {| layout := {| icon_text_fit := mode; text_size := 24;
                  icon_text_fit_padding := [1; 1; 1; 1] |};
     getLayoutValue := λ _ _ _, 0 |}.

Lemma ignores_text_at_mode_none :
  getIconQuads unused_trig unused_trig (Anchor := unit)
               tt demo_icon (fit_layer "none") false (Some demo_text) tt tt
  = getIconQuads unused_trig unused_trig (Anchor := unit)
      tt demo_icon
      {| layout := {| icon_text_fit := "none"; text_size := 0;
                      icon_text_fit_padding := [] |};
         getLayoutValue := getLayoutValue (fit_layer "none") |}
      false None tt tt.
Proof.
  apply (getIconQuads_ignores_text unused_trig unused_trig
           tt demo_icon (fit_layer "none") false (Some demo_text) tt tt).
  left. reflexivity.
Defined.

Lemma fit_both_at_two_icons :
  getIconQuads unused_trig unused_trig (Anchor := unit)
               tt demo_icon (fit_layer "both") false (Some demo_text) tt tt
  = getIconQuads unused_trig unused_trig (Anchor := unit)
      tt
      {| image := {| pixelRatio := 1; textureRect := Rect.mk 20 30 10 10 |};
         top := -50; bottom := 50; left := -50; right := 50 |}
      (fit_layer "both") false (Some demo_text) tt tt.
Proof.
  apply (getIconQuads_fit_both unused_trig unused_trig
           tt demo_icon _ (fit_layer "both") false demo_text tt tt);
    reflexivity.
Defined.

End QuadsDemo.

(* ===================================================================== *)
(** * style-spec/function/compile.js: [compileExpression] *)
(* ===================================================================== *)

Module Compile.

(** The exception of Node's [assert]. *)
Inductive AssertionError : Type := assertion_failed.

(** How a call ends: with a value, or with the assertion's exception. *)
Inductive completion (A : Type) : Type :=
| Normal (a : A)
| Abrupt (e : AssertionError).
Arguments Normal {A} a.
Arguments Abrupt {A} e.

(** Computations over the state that outlives a call of the facade: the
    operator registry [definitions] and whatever else the modules it
    requires keep at module level. *)
Definition M (World A : Type) : Type := World → completion A * World.

#[global] Instance M_ret {World} : MRet (M World) :=
  λ A a w, (Normal a, w).

#[global] Instance M_bind {World} : MBind (M World) :=
  λ A B k m w,
    match m w with
    | (Normal a, w') => k a w'
    | (Abrupt e, w') => (Abrupt e, w')
    end.

(** [assert(cond)] *)
Definition assert {World} (cond : bool) : M World unit :=
  λ w, (if cond then Normal tt else Abrupt assertion_failed, w).

(** A call into another module.  It is taken to return; what it reads and
    writes besides its arguments is the world. *)
Definition extern {World A} (f : World → A * World) : M World A :=
  λ w, let '(a, w') := f w in (Normal a, w').

(** [expectedType || null]: a [Type] object is truthy, [undefined] becomes
    [null]. *)
Definition or_null {A} (optional : option A) : option A :=
  match optional with
  | Some a => Some a
  | None => None
  end.

Section Facade.

(** What [compile.js] requires from [./expression], [./parse_expression],
    [./definitions], [./evaluation_context] and [./is_constant], none of
    which is part of this file. *)
Context {mixed Type_ Expression ParsingError Definitions ParsingContext
         CompilationContext EvaluationContext Function World : Type}.

Variable definitions : Definitions.
Variable new_ParsingContext :
  Definitions → list nat → option Type_ → ParsingContext.
Variable errors : ParsingContext → list ParsingError.
(** [parseExpression] writes to the context it is given: the context comes
    back with the expression. *)
Variable parseExpression :
  mixed → ParsingContext → World → (option Expression * ParsingContext) * World.
Variable new_CompilationContext : CompilationContext.
Variable compileToFunction :
  CompilationContext → Expression → EvaluationContext →
  World → (Function * CompilationContext) * World.
Variable getPrelude : CompilationContext → World → string * World.
Variable evaluationContext : World → EvaluationContext * World.
Variable isFeatureConstant : Expression → World → bool * World.
Variable isZoomConstant : Expression → World → bool * World.

(** The values found in the fields of the two result objects. *)
Inductive JSValue : Type :=
| JString (s : string)
| JBoolean (b : bool)
| JFunction (f : Function)
| JExpression (e : Expression)
| JErrors (errs : list ParsingError).

(** An object literal [{k1: v1, ..., kn: vn}]. *)
Definition object (fields : list (string * JSValue)) : gmap string JSValue :=
  list_to_map fields.

Definition compileExpression (expr : mixed) (expectedType : option Type_)
  : M World (gmap string JSValue) :=
  let context := new_ParsingContext definitions [] (or_null expectedType) in
  '(parsed, context) ← extern (parseExpression expr context);
  match parsed with
  | None =>
      assert (0 <? length (errors context));;
      mret (object [ ("result", JString "error");
                     ("errors", JErrors (errors context)) ])
  | Some parsed =>
      let compilationContext := new_CompilationContext in
      ectx ← extern evaluationContext;
      '(compiled, compilationContext) ←
        extern (compileToFunction compilationContext parsed ectx);
      functionSource ← extern (getPrelude compilationContext);
      featureConstant ← extern (isFeatureConstant parsed);
      zoomConstant ← extern (isZoomConstant parsed);
      mret (object [ ("result", JString "success");
                     ("function", JFunction compiled);
                     ("functionSource", JString functionSource);
                     ("isFeatureConstant", JBoolean featureConstant);
                     ("isZoomConstant", JBoolean zoomConstant);
                     ("expression", JExpression parsed) ])
  end.

(** ** The two variants of the result *)

(** The fields of [CompiledExpression] besides the tag. *)
Definition success_fields : list string :=
  ["function"; "functionSource"; "isFeatureConstant"; "isZoomConstant";
   "expression"].

(** [CompiledExpression]: the tag is ['success'] and the fields are exactly
    the declared ones, each of its declared type. *)
Definition is_CompiledExpression (o : gmap string JSValue) : Prop :=
  o !! "result" = Some (JString "success") ∧
  dom o = list_to_set ("result" :: success_fields) ∧
  (∃ f, o !! "function" = Some (JFunction f)) ∧
  (∃ src, o !! "functionSource" = Some (JString src)) ∧
  (∃ b, o !! "isFeatureConstant" = Some (JBoolean b)) ∧
  (∃ b, o !! "isZoomConstant" = Some (JBoolean b)) ∧
  (∃ e, o !! "expression" = Some (JExpression e)).

(** [CompileErrors]: the tag is ['error'] and the only other field is the
    array of errors. *)
Definition is_CompileErrors (o : gmap string JSValue) : Prop :=
  o !! "result" = Some (JString "error") ∧
  dom o = list_to_set ["result"; "errors"] ∧
  (∃ errs, o !! "errors" = Some (JErrors errs)).

(** The value a call returned, if it returned one. *)
Definition returned {A} (r : completion A * World) : option A :=
  match r.1 with
  | Normal a => Some a
  | Abrupt _ => None
  end.

(** Exactly one of the two variants, with none of the other's fields. *)
Definition one_variant (o : gmap string JSValue) : Prop :=
  (is_CompiledExpression o ∧ ¬ is_CompileErrors o ∧ o !! "errors" = None)
  ∨ (is_CompileErrors o ∧ ¬ is_CompiledExpression o
     ∧ ∀ k, k ∈ success_fields → o !! k = None).

(** The parser's side of the assertion on the failure branch: no expression
    means at least one recorded error. *)
Definition reports_failures : Prop :=
  ∀ expr context w,
    (parseExpression expr context w).1.1 = None →
    errors (parseExpression expr context w).1.2 ≠ [].

(** ** The two paths through [compileExpression] *)

(** The failure path: the parser handed back no expression. *)
Lemma compileExpression_failure expr expectedType w context w1 :
  parseExpression expr
    (new_ParsingContext definitions [] (or_null expectedType)) w
    = (None, context, w1) →
  compileExpression expr expectedType w
  = (if 0 <? length (errors context)
     then Normal (object [ ("result", JString "error");
                           ("errors", JErrors (errors context)) ])
     else Abrupt assertion_failed, w1).
Proof.
  intros Hp. unfold compileExpression, mbind, M_bind, extern, assert, mret, M_ret.
  rewrite Hp. by destruct (0 <? length (errors context)).
Qed.

(** The success path, with the collaborators called in program order. *)
Lemma compileExpression_success expr expectedType w parsed context w1 :
  parseExpression expr
    (new_ParsingContext definitions [] (or_null expectedType)) w
    = (Some parsed, context, w1) →
  let '(ectx, w2) := evaluationContext w1 in
  let '(compiled, cc, w3) :=
    compileToFunction new_CompilationContext parsed ectx w2 in
  let '(src, w4) := getPrelude cc w3 in
  let '(fc, w5) := isFeatureConstant parsed w4 in
  let '(zc, w6) := isZoomConstant parsed w5 in
  compileExpression expr expectedType w
  = (Normal (object [ ("result", JString "success");
                      ("function", JFunction compiled);
                      ("functionSource", JString src);
                      ("isFeatureConstant", JBoolean fc);
                      ("isZoomConstant", JBoolean zc);
                      ("expression", JExpression parsed) ]), w6).
Proof.
  intros Hp. unfold compileExpression, mbind, M_bind, extern, mret, M_ret.
  rewrite Hp.
  destruct (evaluationContext w1) as [ectx w2].
  destruct (compileToFunction _ _ _ _) as [[compiled cc] w3].
  destruct (getPrelude cc w3) as [src w4].
  destruct (isFeatureConstant parsed w4) as [fc w5].
  by destruct (isZoomConstant parsed w5) as [zc w6].
Qed.

Lemma success_object_is_CompiledExpression compiled src fc zc parsed :
  is_CompiledExpression
    (object [ ("result", JString "success");
              ("function", JFunction compiled);
              ("functionSource", JString src);
              ("isFeatureConstant", JBoolean fc);
              ("isZoomConstant", JBoolean zc);
              ("expression", JExpression parsed) ]).
Proof.
  unfold is_CompiledExpression, object. split_and!; eauto.
Qed.

Lemma error_object_is_CompileErrors errs :
  is_CompileErrors
    (object [ ("result", JString "error"); ("errors", JErrors errs) ]).
Proof.
  unfold is_CompileErrors, object. split_and!; eauto.
Qed.

(** The tags tell the variants apart, and so do the fields: an object of one
    variant has no field that only the other declares. *)
Lemma CompiledExpression_not_CompileErrors o :
  is_CompiledExpression o →
  ¬ is_CompileErrors o ∧ o !! "errors" = None.
Proof.
  intros (Hres & Hdom & _). split.
  - intros (Hres' & _). congruence.
  - apply not_elem_of_dom. rewrite Hdom. by apply (bool_decide_unpack _).
Qed.

Lemma CompileErrors_not_CompiledExpression o :
  is_CompileErrors o →
  ¬ is_CompiledExpression o ∧ ∀ k, k ∈ success_fields → o !! k = None.
Proof.
  intros (Hres & Hdom & _). split.
  - intros (Hres' & _). congruence.
  - intros k Hk. apply not_elem_of_dom. rewrite Hdom.
    unfold success_fields in Hk.
    repeat (apply elem_of_cons in Hk as [->|Hk];
            [by apply (bool_decide_unpack _)|]).
    by apply elem_of_nil in Hk.
Qed.

(** ** What the facade returns *)

(** The call ends in one of three ways, decided by what the parser handed
    back. *)
Lemma compileExpression_cases expr expectedType w :
  let p := parseExpression expr
             (new_ParsingContext definitions [] (or_null expectedType)) w in
  match p.1.1, errors p.1.2 with
  | Some parsed, _ =>
      ∃ o, returned (compileExpression expr expectedType w) = Some o
           ∧ is_CompiledExpression o
           ∧ o !! "expression" = Some (JExpression parsed)
  | None, [] =>
      (compileExpression expr expectedType w).1 = Abrupt assertion_failed
  | None, errs =>
      returned (compileExpression expr expectedType w)
      = Some (object [ ("result", JString "error"); ("errors", JErrors errs) ])
  end.
Proof.
  intros p. subst p.
  destruct (parseExpression _ _ _) as [[[parsed|] context] w1] eqn:Hp; simpl.
  - pose proof (compileExpression_success _ _ _ _ _ _ Hp) as H.
    destruct (evaluationContext w1) as [ectx w2].
    destruct (compileToFunction _ _ _ _) as [[compiled cc] w3].
    destruct (getPrelude cc w3) as [src w4].
    destruct (isFeatureConstant parsed w4) as [fc w5].
    destruct (isZoomConstant parsed w5) as [zc w6].
    rewrite H. eexists. split; [reflexivity|].
    split; [apply success_object_is_CompiledExpression | reflexivity].
  - rewrite (compileExpression_failure _ _ _ _ _ Hp).
    by destruct (errors context).
Qed.

(** Whatever the collaborators do, a value that is returned is exactly one
    variant. *)
Lemma compileExpression_returned_one_variant expr expectedType w o :
  returned (compileExpression expr expectedType w) = Some o → one_variant o.
Proof.
  pose proof (compileExpression_cases expr expectedType w) as H. simpl in H.
  destruct (parseExpression _ _ _) as [[[parsed|] context] w1]; simpl in H.
  - destruct H as (o' & -> & Ho' & _). intros [= <-]. left.
    split; [done|]. by apply CompiledExpression_not_CompileErrors.
  - destruct (errors context) as [|e errs].
    + unfold returned. by rewrite H.
    + rewrite H. intros [= <-]. right.
      pose proof (error_object_is_CompileErrors (e :: errs)) as He.
      split; [done|]. by apply CompileErrors_not_CompiledExpression.
Qed.

(** C1.  With a parser that records an error whenever it hands back no
    expression (what the assertion on the failure branch states), every call
    returns, and what it returns is exactly one variant of the union: a
    [CompiledExpression] without an [errors] field, or a [CompileErrors]
    object, whose [errors] field is a list of parsing errors, without any of
    the success fields. *)
Theorem compileExpression_returns_one_variant expr expectedType w :
  reports_failures →
  ∃ o, returned (compileExpression expr expectedType w) = Some o
       ∧ one_variant o.
Proof.
  intros Hparse.
  pose proof (compileExpression_cases expr expectedType w) as H. simpl in H.
  specialize (Hparse expr
    (new_ParsingContext definitions [] (or_null expectedType)) w).
  destruct (parseExpression _ _ _) as [[[parsed|] context] w1] eqn:Hp;
    simpl in H, Hparse.
  - destruct H as (o & Hret & _). exists o. split; [done|].
    by apply (compileExpression_returned_one_variant expr expectedType w).
  - destruct (errors context) as [|e errs]; [by destruct Hparse|].
    eexists. split; [exact H|].
    apply (compileExpression_returned_one_variant expr expectedType w).
    exact H.
Qed.

(** C2, as the code has it.  A successful result has the tag and exactly
    five more fields: [function] (the evaluator), [functionSource],
    [isFeatureConstant], [isZoomConstant] and [expression], the parsed
    expression itself.  There is no [type] field: the resolved type travels
    inside [expression]. *)
Theorem compileExpression_success_fields expr expectedType w o :
  returned (compileExpression expr expectedType w) = Some o →
  o !! "result" = Some (JString "success") →
  is_CompiledExpression o
  ∧ o !! "type" = None
  ∧ ∃ parsed,
      (parseExpression expr
         (new_ParsingContext definitions [] (or_null expectedType)) w).1.1
      = Some parsed
      ∧ o !! "expression" = Some (JExpression parsed).
Proof.
  intros Hret Htag.
  pose proof (compileExpression_cases expr expectedType w) as H. simpl in H.
  destruct (parseExpression _ _ _) as [[[parsed|] context] w1]; simpl in *.
  - destruct H as (o' & Hret' & Ho' & He). rewrite Hret in Hret'.
    injection Hret' as <-. split_and!; [done| |by eauto].
    destruct Ho' as (_ & Hdom & _). apply not_elem_of_dom. rewrite Hdom.
    by apply (bool_decide_unpack _).
  - destruct (errors context) as [|e errs].
    + unfold returned in Hret. by rewrite H in Hret.
    + rewrite H in Hret. by injection Hret as <-.
Qed.

(** ** Success and failure *)


(** ** The three ways out of [compileExpression] *)

(** X18.  The assertion on the failure branch fails, and the call throws
    instead of returning, exactly when the parser hands back no expression
    and has recorded no error. *)
Theorem compileExpression_throws_iff expr expectedType w :
  let p := parseExpression expr
             (new_ParsingContext definitions [] (or_null expectedType)) w in
  (compileExpression expr expectedType w).1 = Abrupt assertion_failed
  ↔ p.1.1 = None ∧ errors p.1.2 = [].
Proof.
  pose proof (compileExpression_cases expr expectedType w) as H.
  cbv zeta in *.
  destruct (parseExpression _ _ _) as [[[parsed|] context] w1]; simpl in *.
  - destruct H as (o & Hret & _). unfold returned in Hret.
    split; [|by intros [? _]]. intros Habrupt. by rewrite Habrupt in Hret.
  - destruct (errors context) as [|e errs].
    + by split.
    + unfold returned in H. split; [|by intros [_ ?]].
      intros Habrupt. by rewrite Habrupt in H.
Qed.

(** X19.  On the failure path the parser is the only collaborator that
    runs: the state left behind is the one the parser left, and the result
    holds the errors of the parsing context, in the order the parser
    recorded them. *)
Theorem compileExpression_failure_runs_parser_only expr expectedType w :
  let p := parseExpression expr
             (new_ParsingContext definitions [] (or_null expectedType)) w in
  p.1.1 = None → errors p.1.2 ≠ [] →
  compileExpression expr expectedType w
  = (Normal (object [ ("result", JString "error");
                      ("errors", JErrors (errors p.1.2)) ]), p.2).
Proof.
  cbv zeta.
  destruct (parseExpression _ _ _) as [[parsed context] w1] eqn:Hp. simpl.
  intros -> Herrors. rewrite (compileExpression_failure _ _ _ _ _ Hp).
  destruct (errors context); [done|]. reflexivity.
Qed.

(** X20.  Only the missing expression signals a failure: when the parser
    hands back an expression the result is a success built from it, with no
    [errors] field, whatever the parsing context has recorded. *)
Theorem compileExpression_success_drops_errors expr expectedType w parsed :
  (parseExpression expr
     (new_ParsingContext definitions [] (or_null expectedType)) w).1.1
  = Some parsed →
  ∃ o, returned (compileExpression expr expectedType w) = Some o
       ∧ is_CompiledExpression o
       ∧ o !! "expression" = Some (JExpression parsed)
       ∧ o !! "errors" = None.
Proof.
  intros Hp.
  pose proof (compileExpression_cases expr expectedType w) as H.
  cbv zeta in H. rewrite Hp in H. destruct H as (o & Hret & Ho & He).
  exists o. split_and!; try done.
  by apply CompiledExpression_not_CompileErrors.
Qed.

End Facade.
End Compile.

(** ** A parser that recovers

    [parse_expression.js] is not at hand.  This stand-in for
    [parseExpression] records a type error in the context and still hands
    back the expression it built, as a parser that goes on after a local
    failure may.  The other collaborators do as little as their types allow.
    [compileExpression] cannot tell such a parse from a clean one. *)
Module RecoveringParser.
Import Compile.

Definition parseExpression (expr : string) (context : list string) (w : unit)
  : (option string * list string) * unit :=
  ((Some expr,
    context ++ ["Expected number but found string instead."]), w).

Definition compile (expr : string)
  : M unit (gmap string (@JSValue string string string)) :=
  compileExpression (Type_ := unit)
    tt (λ _ _ _, []) id parseExpression
    tt (λ cc parsed _ w, ((parsed, cc), w)) (λ _ w, ("", w))
    (λ w, (tt, w)) (λ _ w, (true, w)) (λ _ w, (true, w))
    expr None.


End RecoveringParser.

(* ===================================================================== *)
(** * The type system and the operator registry *)
(* ===================================================================== *)

(** [compile.js] requires [./types] and [./definitions]; neither module is
    at hand, so the definitions of this part follow the design document
    (sections 3, 4.1 and 4.2). *)

Module Types.

(** Modelled from the spec: the [Type] variant of [./types] (section 3):
    [Null | Boolean | Number | String | Color | Object | Array(itemType,
    length?) | Value | Error]. *)
Inductive Ty : Type :=
| NullT
| BooleanT
| NumberT
| StringT
| ColorT
| ObjectT
| ArrayT (itemType : Ty) (length : option nat)
| ValueT
| ErrorT.

#[global] Instance Ty_eq_dec : EqDecision Ty.
Proof. solve_decision. Defined.

(** Modelled from the spec: the length rule of [arrayCompatible] (sections
    3 and 4.1): an array type without a fixed length goes with any length,
    two fixed lengths must be equal. *)
Definition lengthCompatible (actual expected : option nat) : bool :=
  match actual, expected with
  | Some n, Some m => Nat.eqb n m
  | _, _ => true
  end.

(** Modelled from the spec: [isCompatible(actual, expected)] of [./types]
    (sections 3 and 4.1).  [Error] is compatible with every type, [Value]
    accepts every type, arrays compare item types and lengths, and apart
    from that a type is compatible with itself only. *)
Fixpoint isCompatible (actual expected : Ty) : bool :=
  match actual, expected with
  | ErrorT, _ | _, ErrorT => true
  | _, ValueT => true
  | NullT, NullT | BooleanT, BooleanT | NumberT, NumberT
  | StringT, StringT | ColorT, ColorT | ObjectT, ObjectT => true
  | ArrayT item n, ArrayT item' n' =>
      isCompatible item item' && lengthCompatible n n'
  | _, _ => false
  end.

Lemma isCompatible_refl t : isCompatible t t = true.
Proof.
  induction t as [| | | | | |item IH n| |]; simpl; try done.
  rewrite IH. destruct n; simpl; [apply Nat.eqb_refl|done].
Qed.

Lemma isCompatible_Value t : isCompatible t ValueT = true.
Proof. by destruct t. Qed.

Lemma isCompatible_Error t : isCompatible ErrorT t = true ∧ isCompatible t ErrorT = true.
Proof. by destruct t. Qed.

Example string_is_no_number : isCompatible StringT NumberT = false.
Proof. reflexivity. Qed.

Example array_lengths :
  isCompatible (ArrayT NumberT (Some 3)) (ArrayT NumberT None) = true
  ∧ isCompatible (ArrayT NumberT (Some 3)) (ArrayT NumberT (Some 4)) = false
  ∧ isCompatible (ArrayT StringT (Some 3)) (ArrayT ValueT (Some 3)) = true.
Proof. done. Qed.

End Types.

Module Registry.
Import Types.

(** A position in the nested input: the indices leading to it. *)
Definition Location : Type := list nat.

(** Modelled from the spec: [Signature] of [./definitions] (section 3):
    parameter types with an optional variadic tail, and a return type. *)
Record Signature := {
  paramTypes : list Ty;
  variadic : option Ty;
  returnType : Ty
}.

(** Modelled from the spec: the two kinds of error of section 4.2.  The
    arity error names the operator, the arities its signatures take (least
    count, and whether more may follow) and the count given; the mismatch
    cites the expected type, the actual type and the argument's location. *)
Inductive ResolveError : Type :=
| ArityError (operator : string) (expected : list (nat * bool)) (given : nat)
| TypeMismatch (expected actual : Ty) (location : Location).

(** Modelled from the spec: "a variadic tail matches zero or more trailing
    arguments" (section 4.2), as a test on the number of arguments. *)
Definition arityMatches (sig : Signature) (given : nat) : bool :=
  match variadic sig with
  | Some _ => Nat.leb (length (paramTypes sig)) given
  | None => Nat.eqb (length (paramTypes sig)) given
  end.

(** Modelled from the spec: the type a signature expects at an argument
    position (section 4.2): the parameter there, and past the parameters
    the tail's declared type. *)
Definition expectedAt (sig : Signature) (k : nat) : option Ty :=
  match paramTypes sig !! k with
  | Some t => Some t
  | None => variadic sig
  end.

(** Modelled from the spec: the first argument, left to right, whose type
    is not compatible with the type expected at its position (section 4.2,
    "the offending argument"). *)
Fixpoint mismatch (params : list Ty) (tail : option Ty)
    (args : list (Ty * Location)) : option (Ty * Ty * Location) :=
  match args with
  | [] => None
  | (actual, loc) :: args' =>
      match params with
      | expected :: params' =>
          if isCompatible actual expected then mismatch params' tail args'
          else Some (expected, actual, loc)
      | [] =>
          match tail with
          | Some expected =>
              if isCompatible actual expected then mismatch [] tail args'
              else Some (expected, actual, loc)
          | None => None
          end
      end
  end.

(** Modelled from the spec: a signature applies when the argument count
    fits and every argument is compatible (section 4.2). *)
Definition applicable (args : list (Ty * Location)) (sig : Signature) : bool :=
  arityMatches sig (length args)
  && bool_decide (mismatch (paramTypes sig) (variadic sig) args = None).

(** Modelled from the spec: the mismatch that a signature of fitting arity
    reports (section 4.2, error kind (ii)). *)
Definition arityMismatch (args : list (Ty * Location)) (sig : Signature)
  : option (Ty * Ty * Location) :=
  if arityMatches sig (length args)
  then mismatch (paramTypes sig) (variadic sig) args
  else None.

(** The first element of a list for which [f] has an answer. *)
Fixpoint first_answer {A B} (f : A → option B) (l : list A) : option B :=
  match l with
  | [] => None
  | a :: l' =>
      match f a with
      | Some b => Some b
      | None => first_answer f l'
      end
  end.

(** Modelled from the spec: overload resolution of [./definitions]
    (section 4.2): the first applicable signature in declaration order; if
    there is none, a type mismatch when some signature has a fitting arity
    and an arity error otherwise. *)
Definition resolve (operator : string) (overloads : list Signature)
    (args : list (Ty * Location)) : Signature + ResolveError :=
  match list_find (λ sig, applicable args sig = true) overloads with
  | Some (_, sig) => inl sig
  | None =>
      match first_answer (arityMismatch args) overloads with
      | Some (expected, actual, loc) => inr (TypeMismatch expected actual loc)
      | None =>
          inr (ArityError operator
                 ((λ sig, (length (paramTypes sig),
                           bool_decide (is_Some (variadic sig))))
                    <$> overloads)
                 (length args))
      end
  end.

(** [expectedAt] on a bare parameter list. *)
Definition expectedIn (params : list Ty) (tail : option Ty) (k : nat)
  : option Ty :=
  match params !! k with
  | Some t => Some t
  | None => tail
  end.

(** Modelled from the spec: the overloads of two operators of section 8.
    [+] takes two numbers or more, [get] a key and, optionally, the object
    to look in. *)
Definition plus_overloads : list Signature :=
  [ {| paramTypes := [NumberT; NumberT]; variadic := Some NumberT;
       returnType := NumberT |} ].

Definition get_overloads : list Signature :=
  [ {| paramTypes := [StringT]; variadic := None; returnType := ValueT |};
    {| paramTypes := [StringT; ObjectT]; variadic := None;
       returnType := ValueT |} ].

(** ** Properties of the resolution *)

Lemma expectedIn_nil tail k : expectedIn [] tail k = tail.
Proof. unfold expectedIn. by rewrite lookup_nil. Qed.

Lemma expectedIn_cons p params tail k :
  expectedIn (p :: params) tail (S k) = expectedIn params tail k.
Proof. reflexivity. Qed.

Lemma mismatch_None params tail args :
  mismatch params tail args = None ↔
  ∀ k actual loc expected,
    args !! k = Some (actual, loc) →
    expectedIn params tail k = Some expected →
    isCompatible actual expected = true.
Proof.
  revert params. induction args as [|[a l] args IH]; intros params; simpl.
  { split; [|done]. intros _ k ? ? ? Hk. by rewrite lookup_nil in Hk. }
  assert (Hstep : ∀ params' expected,
            expectedIn params tail 0 = Some expected →
            (∀ k, expectedIn params tail (S k) = expectedIn params' tail k) →
            (if isCompatible a expected then mismatch params' tail args
             else Some (expected, a, l)) = None ↔
            ∀ k actual loc expected',
              ((a, l) :: args) !! k = Some (actual, loc) →
              expectedIn params tail k = Some expected' →
              isCompatible actual expected' = true).
  { intros params' expected H0 HS. destruct (isCompatible a expected) eqn:Hc.
    - rewrite IH. split.
      + intros H [|k] actual loc expected' Hk He.
        * simpl in Hk. congruence.
        * rewrite HS in He. by apply (H k actual loc expected').
      + intros H k actual loc expected' Hk He.
        apply (H (S k) actual loc expected' Hk). by rewrite HS.
    - split; [done|]. intros H.
      specialize (H 0 a l expected eq_refl H0). congruence. }
  destruct params as [|p params].
  - destruct tail as [t|].
    + apply Hstep; [done|]. intros k. by rewrite !expectedIn_nil.
    + split; [|done]. intros _ k ? ? ? _ He. by rewrite expectedIn_nil in He.
  - by apply Hstep.
Qed.

Lemma mismatch_Some params tail args expected actual loc :
  mismatch params tail args = Some (expected, actual, loc) →
  ∃ k, args !! k = Some (actual, loc)
       ∧ expectedIn params tail k = Some expected
       ∧ isCompatible actual expected = false.
Proof.
  revert params. induction args as [|[a l] args IH]; intros params; simpl;
    [done|].
  destruct params as [|p params].
  - destruct tail as [t|]; [|done].
    destruct (isCompatible a t) eqn:Hc.
    + intros H. destruct (IH _ H) as (k & Hk & He & Hi).
      exists (S k). rewrite expectedIn_nil in *. by split_and!.
    + intros [= <- <- <-]. exists 0. by split_and!.
  - destruct (isCompatible a p) eqn:Hc.
    + intros H. destruct (IH _ H) as (k & Hk & He & Hi).
      exists (S k). by split_and!.
    + intros [= <- <- <-]. exists 0. by split_and!.
Qed.

(** With a fitting arity every argument position has an expected type. *)
Lemma arityMatches_expectedAt sig (args : list (Ty * Location)) k :
  arityMatches sig (length args) = true →
  k < length args → is_Some (expectedAt sig k).
Proof.
  unfold arityMatches, expectedAt. intros Ha Hk.
  destruct (paramTypes sig !! k) eqn:Hp; [by eauto|].
  destruct (variadic sig); [by eauto|].
  apply Nat.eqb_eq in Ha. apply lookup_ge_None in Hp. lia.
Qed.

(** A signature applies exactly when the count fits and every argument is
    compatible with the type expected at its position. *)
Lemma applicable_spec args sig :
  applicable args sig = true ↔
  arityMatches sig (length args) = true
  ∧ ∀ k actual loc,
      args !! k = Some (actual, loc) →
      ∃ expected, expectedAt sig k = Some expected
                  ∧ isCompatible actual expected = true.
Proof.
  unfold applicable. rewrite andb_true_iff, bool_decide_eq_true, mismatch_None.
  split; intros [Ha H]; (split; [done|]).
  - intros k actual loc Hk.
    destruct (arityMatches_expectedAt sig args k Ha) as [expected He].
    { by apply lookup_lt_Some in Hk. }
    exists expected. split; [done|]. by apply (H k actual loc).
  - intros k actual loc expected Hk He.
    destruct (H k actual loc Hk) as (expected' & He' & Hc).
    unfold expectedAt in He'. unfold expectedIn in He. congruence.
Qed.

Lemma first_answer_Some {A B} (f : A → option B) l b :
  first_answer f l = Some b → ∃ a, a ∈ l ∧ f a = Some b.
Proof.
  induction l as [|a l IH]; simpl; [done|].
  destruct (f a) eqn:Hf.
  - intros [= ->]. exists a. split; [left|done].
  - intros H. destruct (IH H) as (a' & Hin & Ha'). exists a'.
    split; [by right|done].
Qed.

Lemma first_answer_None {A B} (f : A → option B) l :
  first_answer f l = None ↔ ∀ a, a ∈ l → f a = None.
Proof.
  induction l as [|a l IH]; simpl.
  - split; [|done]. intros _ a Ha. by apply elem_of_nil in Ha.
  - destruct (f a) eqn:Hf.
    + split; [done|]. intros H. rewrite (H a) in Hf; [done|left].
    + rewrite IH. split.
      * intros H a' [->|Ha']%elem_of_cons; [done|by apply H].
      * intros H a' Ha'. apply H. by right.
Qed.

(** C8.  Resolution picks the first signature, in declaration order, that
    applies to the arguments (count and types, the variadic tail standing
    for any number of trailing arguments of its type); earlier signatures
    that apply win over later ones.  When none applies, the error is an
    arity error if no signature takes that many arguments, and otherwise a
    type mismatch citing the expected type, the actual type and the
    location of an argument that a signature of fitting arity rejects. *)
Theorem resolve_first_applicable operator overloads args :
  (∀ sig,
     resolve operator overloads args = inl sig ↔
     ∃ i, overloads !! i = Some sig
          ∧ applicable args sig = true
          ∧ ∀ j sig', overloads !! j = Some sig' → j < i →
                      applicable args sig' = false)
  ∧ (∀ sig,
       applicable args sig = true ↔
       arityMatches sig (length args) = true
       ∧ ∀ k actual loc,
           args !! k = Some (actual, loc) →
           ∃ expected, expectedAt sig k = Some expected
                       ∧ isCompatible actual expected = true)
  ∧ ((∀ sig, sig ∈ overloads → applicable args sig = false) →
     (∀ sig, sig ∈ overloads → arityMatches sig (length args) = false) →
     ∃ arities,
       resolve operator overloads args
       = inr (ArityError operator arities (length args)))
  ∧ ((∀ sig, sig ∈ overloads → applicable args sig = false) →
     (∃ sig, sig ∈ overloads ∧ arityMatches sig (length args) = true) →
     ∃ sig k expected actual loc,
       sig ∈ overloads
       ∧ arityMatches sig (length args) = true
       ∧ args !! k = Some (actual, loc)
       ∧ expectedAt sig k = Some expected
       ∧ isCompatible actual expected = false
       ∧ resolve operator overloads args
         = inr (TypeMismatch expected actual loc)).
Proof.
  assert (Hnone : (∀ sig, sig ∈ overloads → applicable args sig = false) →
                  list_find (λ sig, applicable args sig = true) overloads = None).
  { intros H. apply list_find_None, Forall_forall. intros sig Hin.
    rewrite (H sig Hin). done. }
  split_and!.
  - intros sig. unfold resolve.
    destruct (list_find _ overloads) as [[i sig']|] eqn:Hfind.
    + apply list_find_Some in Hfind as (Hi & Happ & Hfirst). split.
      * intros [= <-]. exists i. split_and!; [done..|].
        intros j s Hj Hlt. specialize (Hfirst j s Hj Hlt).
        by destruct (applicable args s).
      * intros (i' & Hi' & Happ' & Hfirst'). f_equal.
        destruct (Nat.lt_trichotomy i i') as [Hlt|[->|Hgt]].
        -- rewrite (Hfirst' i sig' Hi Hlt) in Happ. done.
        -- congruence.
        -- specialize (Hfirst i' sig Hi' Hgt). by rewrite Happ' in Hfirst.
    + apply list_find_None in Hfind. split.
      * by destruct (first_answer _ _) as [[[? ?] ?]|].
      * intros (i & Hi & Happ & _). exfalso.
        rewrite Forall_forall in Hfind.
        apply (Hfind sig); [|done]. by eapply list_elem_of_lookup_2.
  - apply applicable_spec.
  - intros Hno Harity. unfold resolve. rewrite (Hnone Hno).
    assert (first_answer (arityMismatch args) overloads = None) as ->.
    { apply first_answer_None. intros sig Hin. unfold arityMismatch.
      by rewrite (Harity sig Hin). }
    eauto.
  - intros Hno (sig & Hin & Ha). unfold resolve. rewrite (Hnone Hno).
    destruct (first_answer _ _) as [[[expected actual] loc]|] eqn:Hfa.
    + apply first_answer_Some in Hfa as (sig' & Hin' & Hm).
      unfold arityMismatch in Hm.
      destruct (arityMatches sig' (length args)) eqn:Ha'; [|done].
      apply mismatch_Some in Hm as (k & Hk & He & Hc).
      exists sig', k, expected, actual, loc. by split_and!.
    + exfalso. rewrite first_answer_None in Hfa.
      specialize (Hfa sig Hin). unfold arityMismatch in Hfa. rewrite Ha in Hfa.
      specialize (Hno sig Hin). unfold applicable in Hno.
      rewrite Ha, Hfa in Hno. done.
Qed.

(** ** Two operators *)

Example resolve_plus :
  resolve "+" plus_overloads
    [(NumberT, [1]); (NumberT, [2]); (NumberT, [3])]
  = inl {| paramTypes := [NumberT; NumberT]; variadic := Some NumberT;
           returnType := NumberT |}.
Proof. reflexivity. Qed.

Example resolve_plus_arity :
  resolve "+" plus_overloads [(NumberT, [1])]
  = inr (ArityError "+" [(2, true)] 1).
Proof. reflexivity. Qed.

Example resolve_plus_mismatch :
  resolve "+" plus_overloads
    [(NumberT, [1]); (NumberT, [2]); (StringT, [3])]
  = inr (TypeMismatch NumberT StringT [3]).
Proof. reflexivity. Qed.

Example resolve_get_second :
  resolve "get" get_overloads [(StringT, [1]); (ObjectT, [2])]
  = inl {| paramTypes := [StringT; ObjectT]; variadic := None;
           returnType := ValueT |}.
Proof. reflexivity. Qed.

(** Two signatures that both apply: the one declared first is taken. *)
Example resolve_declaration_order :
  resolve "id"
    [ {| paramTypes := [ValueT]; variadic := None; returnType := ValueT |};
      {| paramTypes := [NumberT]; variadic := None; returnType := NumberT |} ]
    [(NumberT, [1])]
  = inl {| paramTypes := [ValueT]; variadic := None; returnType := ValueT |}.
Proof. reflexivity. Qed.

End Registry.

(* ===================================================================== *)
(** * Expressions and their classification *)
(* ===================================================================== *)

(** [./expression] and [./is_constant] are required by [compile.js] and are
    not at hand either: the syntax tree and the two classifiers follow
    sections 3 and 4.4 of the design document. *)

Module Expr.
Import Types Registry.
Set Warnings "-register-all".

(** Modelled from the spec: the JSON-compatible values of section 6, which
    are both the input of the parser and the values of literals; numbers
    are binary64 floats. *)
Inductive Value : Type :=
| VNull
| VBool (b : bool)
| VNumber (n : float)
| VString (s : string)
| VArray (items : list Value)
| VObject (members : list (string * Value)).

(** Modelled from the spec: the [Expression] node of [./expression]
    (section 3): [Literal], [VariableReference], [Call] and [Binding], each
    owning its location and its type, and the poison node that stands where
    parsing failed (sections 4.3 and 7), whose type is [Error]. *)
Inductive Expression : Type :=
| Literal (loc : Location) (ty : Ty) (value : Value)
| VariableReference (loc : Location) (ty : Ty) (name : string)
| Call (loc : Location) (ty : Ty) (operator : string) (args : list Expression)
| Binding (loc : Location) (ty : Ty) (name : string)
          (valueExpr bodyExpr : Expression)
| Poison (loc : Location).

(** The [type] and the location a node owns. *)
Definition type_of (e : Expression) : Ty :=
  match e with
  | Literal _ ty _ | VariableReference _ ty _ | Call _ ty _ _
  | Binding _ ty _ _ _ => ty
  | Poison _ => ErrorT
  end.

Definition location_of (e : Expression) : Location :=
  match e with
  | Literal loc _ _ | VariableReference loc _ _ | Call loc _ _ _
  | Binding loc _ _ _ _ | Poison loc => loc
  end.

(** Induction on expressions that reaches the arguments of a call. *)
Lemma Expression_induction (P : Expression → Prop) :
  (∀ loc ty value, P (Literal loc ty value)) →
  (∀ loc ty name, P (VariableReference loc ty name)) →
  (∀ loc ty operator args, Forall P args → P (Call loc ty operator args)) →
  (∀ loc ty name v b, P v → P b → P (Binding loc ty name v b)) →
  (∀ loc, P (Poison loc)) →
  ∀ e, P e.
Proof.
  intros HL HV HC HB HP.
  fix IH 1. intros [loc ty value|loc ty name|loc ty operator args
                   |loc ty name v b|loc].
  - apply HL.
  - apply HV.
  - apply HC. induction args as [|a args IHargs]; constructor.
    + apply IH.
    + apply IHargs.
  - apply HB; apply IH.
  - apply HP.
Qed.

Section Classifier.

(** The operators documented as depending on the zoom level, and the
    accessors of feature data (properties, geometry type, feature state):
    a matter of the operator catalogue. *)
Variables zoomDependent featureDependent : string → bool.

(** Modelled from the spec: [isZoomConstant] of [./is_constant] (section
    4.4): no subtree is a reference to the zoom variable that no enclosing
    binding of the same name shadows, and none is a call of a
    zoom-dependent operator.  [bound] lists the names bound around [e]. *)
Fixpoint isZoomConstantIn (bound : list string) (e : Expression) : bool :=
  match e with
  | Literal _ _ _ | Poison _ => true
  | VariableReference _ _ name =>
      negb (String.eqb name "zoom") || bool_decide (name ∈ bound)
  | Call _ _ operator args =>
      negb (zoomDependent operator) && forallb (isZoomConstantIn bound) args
  | Binding _ _ name valueExpr bodyExpr =>
      isZoomConstantIn bound valueExpr
      && isZoomConstantIn (name :: bound) bodyExpr
  end.

Definition isZoomConstant (e : Expression) : bool := isZoomConstantIn [] e.

(** Modelled from the spec: [isFeatureConstant] of [./is_constant] (section
    4.4): no subtree is a call of a feature-data accessor.  Accessors are
    operators, which a binding cannot shadow. *)
Fixpoint isFeatureConstant (e : Expression) : bool :=
  match e with
  | Literal _ _ _ | VariableReference _ _ _ | Poison _ => true
  | Call _ _ operator args =>
      negb (featureDependent operator) && forallb isFeatureConstant args
  | Binding _ _ _ valueExpr bodyExpr =>
      isFeatureConstant valueExpr && isFeatureConstant bodyExpr
  end.

(** "Some subtree that is not shadowed references zoom", as a relation:
    [referencesZoom bound e] holds when [e], standing below bindings of the
    names [bound], has such a subtree. *)
Inductive referencesZoom : list string → Expression → Prop :=
| rz_variable bound loc ty :
    "zoom" ∉ bound → referencesZoom bound (VariableReference loc ty "zoom")
| rz_operator bound loc ty operator args :
    zoomDependent operator = true →
    referencesZoom bound (Call loc ty operator args)
| rz_argument bound loc ty operator args arg :
    arg ∈ args → referencesZoom bound arg →
    referencesZoom bound (Call loc ty operator args)
| rz_value bound loc ty name v b :
    referencesZoom bound v → referencesZoom bound (Binding loc ty name v b)
| rz_body bound loc ty name v b :
    referencesZoom (name :: bound) b →
    referencesZoom bound (Binding loc ty name v b).

(** "Some subtree references feature data". *)
Inductive referencesFeature : Expression → Prop :=
| rf_operator loc ty operator args :
    featureDependent operator = true →
    referencesFeature (Call loc ty operator args)
| rf_argument loc ty operator args arg :
    arg ∈ args → referencesFeature arg →
    referencesFeature (Call loc ty operator args)
| rf_value loc ty name v b :
    referencesFeature v → referencesFeature (Binding loc ty name v b)
| rf_body loc ty name v b :
    referencesFeature b → referencesFeature (Binding loc ty name v b).

(** ** The classifiers against the two relations *)

Lemma forallb_false {A} (f : A → bool) (l : list A) :
  forallb f l = false ↔ ∃ a, a ∈ l ∧ f a = false.
Proof.
  induction l as [|x l IH]; simpl.
  - split; [done|]. intros (a & Ha & _). by apply elem_of_nil in Ha.
  - rewrite andb_false_iff, IH. split.
    + intros [Hx|(a & Ha & Hf)].
      * exists x. split; [left|done].
      * exists a. split; [by right|done].
    + intros (a & [->|Ha]%elem_of_cons & Hf); [by left|]. right. eauto.
Qed.

Lemma isZoomConstantIn_false e :
  ∀ bound, isZoomConstantIn bound e = false ↔ referencesZoom bound e.
Proof.
  induction e as [loc ty value|loc ty name|loc ty operator args IH
                 |loc ty name v b IHv IHb|loc] using Expression_induction;
    intros bound; simpl.
  - split; [done|]. inversion 1.
  - rewrite orb_false_iff, negb_false_iff, bool_decide_eq_false.
    split.
    + intros [->%String.eqb_eq Hnot]. by constructor.
    + inversion 1; subst. by split.
  - rewrite andb_false_iff, negb_false_iff, forallb_false. split.
    + intros [Hop|(arg & Hin & Harg)].
      * by apply rz_operator.
      * apply (rz_argument _ _ _ _ _ arg); [done|].
        rewrite Forall_forall in IH. by apply IH.
    + inversion 1; subst; [by left|]. right.
      match goal with
      | Hin : ?arg ∈ args |- _ =>
          exists arg; split; [done|];
          rewrite Forall_forall in IH; by apply IH
      end.
  - rewrite andb_false_iff, (IHv bound), (IHb (name :: bound)). split.
    + intros [Hv|Hb]; [by apply rz_value|by apply rz_body].
    + inversion 1; subst; [by left|by right].
  - split; [done|]. inversion 1.
Qed.

Lemma isFeatureConstant_false e :
  isFeatureConstant e = false ↔ referencesFeature e.
Proof.
  induction e as [loc ty value|loc ty name|loc ty operator args IH
                 |loc ty name v b IHv IHb|loc] using Expression_induction;
    simpl.
  - split; [done|]. inversion 1.
  - split; [done|]. inversion 1.
  - rewrite andb_false_iff, negb_false_iff, forallb_false. split.
    + intros [Hop|(arg & Hin & Harg)].
      * by apply rf_operator.
      * apply (rf_argument _ _ _ _ arg); [done|].
        rewrite Forall_forall in IH. by apply IH.
    + inversion 1; subst; [by left|]. right.
      match goal with
      | Hin : ?arg ∈ args |- _ =>
          exists arg; split; [done|];
          rewrite Forall_forall in IH; by apply IH
      end.
  - rewrite andb_false_iff, IHv, IHb. split.
    + intros [Hv|Hb]; [by apply rf_value|by apply rf_body].
    + inversion 1; subst; [by left|by right].
  - split; [done|]. inversion 1.
Qed.

(** C7.  For every expression, [isZoomConstant] is false exactly when some
    subtree that no enclosing binding of the same name shadows refers to
    zoom (the zoom variable, or a zoom-dependent operator), and
    [isFeatureConstant] is false exactly when some subtree calls an accessor
    of feature data.  Both are structural recursions: they are functions of
    the expression alone. *)
Theorem classification_sound_and_complete (e : Expression) :
  (isZoomConstant e = false ↔ referencesZoom [] e)
  ∧ (isFeatureConstant e = false ↔ referencesFeature e).
Proof.
  split.
  - apply isZoomConstantIn_false.
  - apply isFeatureConstant_false.
Qed.

End Classifier.
End Expr.

(* ===================================================================== *)
(** * The parser and the evaluator *)
(* ===================================================================== *)

(** [./parse_expression], the two context classes of [./expression] and
    [./evaluation_context] are the remaining modules [compile.js] requires;
    the definitions below follow sections 3, 4.3 and 4.5 of the design
    document. *)

Module Parser.
Import Types Registry Expr.

(** Modelled from the spec: [ParsingError] of [./expression] (section 3), a
    message and a location. *)
Record ParsingError := {
  message : string;
  location : Location
}.

(** Modelled from the spec: the item type in the [Array(itemType, length)]
    of an array literal (sections 3 and 4.1): the type its items share,
    [Value] when they share none. *)
Definition commonType (types : list Ty) : Ty :=
  match types with
  | [] => ValueT
  | t :: rest => if forallb (λ t', bool_decide (t' = t)) rest then t else ValueT
  end.

(** Modelled from the spec: [typeOf(value)] of [./types] (section 4.1), the
    type of a literal. *)
Fixpoint typeOf (v : Value) : Ty :=
  match v with
  | VNull => NullT
  | VBool _ => BooleanT
  | VNumber _ => NumberT
  | VString _ => StringT
  | VArray items => ArrayT (commonType (map typeOf items)) (Some (length items))
  | VObject _ => ObjectT
  end.

(** Modelled from the spec: how a type reads in a message that cites it
    (section 4.3). *)
Fixpoint showTy (t : Ty) : string :=
  match t with
  | NullT => "null"
  | BooleanT => "boolean"
  | NumberT => "number"
  | StringT => "string"
  | ColorT => "color"
  | ObjectT => "object"
  | ArrayT item None => "array<" +:+ showTy item +:+ ">"
  | ArrayT item (Some n) => "array<" +:+ showTy item +:+ ", " +:+ pretty n +:+ ">"
  | ValueT => "value"
  | ErrorT => "error"
  end.

(** Modelled from the spec: the type error of section 4.3, citing the
    expected and the actual type. *)
Definition typeError (expected actual : Ty) : string :=
  "Expected " +:+ showTy expected +:+ " but found " +:+ showTy actual
  +:+ " instead.".

(** Modelled from the spec: how the arities that the signatures of an
    operator take read in a message (section 8, "expected arity range"). *)
Fixpoint showArities (arities : list (nat * bool)) : string :=
  match arities with
  | [] => "none"
  | [(n, more)] => (if more then "at least " else "") +:+ pretty n
  | (n, more) :: rest =>
      (if more then "at least " else "") +:+ pretty n +:+ " or "
      +:+ showArities rest
  end.

(** Modelled from the spec: the diagnostic for a failed resolution
    (sections 4.2 and 8): at the call for an arity error, naming the
    operator, the expected arities and the given count; at the offending
    argument for a mismatch. *)
Definition describe (loc : Location) (err : ResolveError) : ParsingError :=
  match err with
  | ArityError operator expected given =>
      {| message := "Expected " +:+ showArities expected +:+ " arguments for "
                    +:+ operator +:+ ", but found " +:+ pretty given
                    +:+ " instead.";
         location := loc |}
  | TypeMismatch expected actual argLoc =>
      {| message := typeError expected actual; location := argLoc |}
  end.

(** Modelled from the spec: the lexical scope of section 4.3, a stack of
    name-to-type bindings, innermost first. *)
Definition Scope : Type := list (string * Ty).

(** Modelled from the spec: the innermost binding of a name (section
    4.3). *)
Fixpoint scopeLookup (name : string) (scope : Scope) : option Ty :=
  match scope with
  | [] => None
  | (name', ty) :: scope' =>
      if String.eqb name' name then Some ty else scopeLookup name scope'
  end.

Section Parse.

(** The registry: operator names to their overloads, in declaration order. *)
Variable registry : gmap string (list Signature).

(** Modelled from the spec: [parse(node, expectedType, scope)] of
    [./parse_expression] (section 4.3), with the location of [node] and the
    error list threaded through.  A scalar is a literal, unless it is a name
    bound in [scope]; [["literal", v]] is the literal [v];
    [["let", name, value, body]] binds [name] in [body] only; any other
    [[operator, ...args]] is looked up in the registry, its arguments are
    parsed bottom-up and its overload resolved; everything else is a
    structural error.  A failure appends an error and leaves a poison node.
    A result whose type is not compatible with [expectedType] appends a type
    error and is kept. *)
Fixpoint parse (node : Value) (expectedType : option Ty) (scope : Scope)
    (loc : Location) (errors : list ParsingError) {struct node}
  : Expression * list ParsingError :=
  let '(e, errors) :=
    match node with
    | VNull | VBool _ | VNumber _ => (Literal loc (typeOf node) node, errors)
    | VString name =>
        match scopeLookup name scope with
        | Some ty => (VariableReference loc ty name, errors)
        | None => (Literal loc StringT node, errors)
        end
    | VArray (VString operator :: args) =>
        if String.eqb operator "literal" then
          match args with
          | [v] => (Literal loc (typeOf v) v, errors)
          | _ =>
              (Poison loc,
               errors ++ [ {| message := "'literal' expects exactly one argument.";
                              location := loc |} ])
          end
        else if String.eqb operator "let" then
          match args with
          | [VString name; value; body] =>
              let '(v, errors) := parse value None scope (loc ++ [2]) errors in
              let '(b, errors) :=
                parse body None ((name, type_of v) :: scope) (loc ++ [3]) errors in
              (Binding loc (type_of b) name v b, errors)
          | _ =>
              (Poison loc,
               errors ++ [ {| message := "'let' expects a name, a value and a body.";
                              location := loc |} ])
          end
        else
          match registry !! operator with
          | None =>
              (Poison loc,
               errors ++ [ {| message := "Unknown expression " +:+ operator +:+ ".";
                              location := loc ++ [0] |} ])
          | Some overloads =>
              let '(args, errors) :=
                (fix parseArgs (nodes : list Value) (i : nat)
                     (errors : list ParsingError)
                   : list Expression * list ParsingError :=
                   match nodes with
                   | [] => ([], errors)
                   | n :: nodes' =>
                       let '(a, errors) := parse n None scope (loc ++ [i]) errors in
                       let '(rest, errors) := parseArgs nodes' (S i) errors in
                       (a :: rest, errors)
                   end) args 1 errors in
              match resolve operator overloads
                      (map (λ a, (type_of a, location_of a)) args) with
              | inl sig => (Call loc (returnType sig) operator args, errors)
              | inr err => (Poison loc, errors ++ [describe loc err])
              end
          end
    | _ =>
        (Poison loc,
         errors ++ [ {| message := "Expected an expression array or literal.";
                        location := loc |} ])
    end in
  match expectedType with
  | Some expected =>
      if isCompatible (type_of e) expected then (e, errors)
      else (e, errors ++ [ {| message := typeError expected (type_of e);
                              location := loc |} ])
  | None => (e, errors)
  end.

End Parse.
End Parser.

Module Evaluator.
Import Types Registry Expr.

(** Modelled from the spec: [RuntimeContext] (sections 3 and 6): the zoom,
    the feature's properties by name, its geometry type and its state by
    key. *)
Record RuntimeContext := {
  zoom : float;
  properties : gmap string Value;
  geometryType : string;
  featureState : gmap string Value
}.

(** Modelled from the spec: [EvalError] (sections 4.5 and 7), a message and
    the location of the node that failed. *)
Record EvalError := {
  message : string;
  location : Location
}.

(** Modelled from the spec: the run-time side of the lexical scope of
    section 4.3, the values bound by the enclosing [Binding] nodes,
    innermost first. *)
Definition Env : Type := list (string * Value).

(** Modelled from the spec: the value of the innermost binding of a
    name. *)
Fixpoint envLookup (name : string) (env : Env) : option Value :=
  match env with
  | [] => None
  | (name', v) :: env' =>
      if String.eqb name' name then Some v else envLookup name env'
  end.

Section Evaluate.

(** The bodies of the operators ([./evaluation_context] and the operator
    catalogue): from the context and the argument values to a value, or to
    the message of a runtime fault. *)
Variable operators : string → RuntimeContext → list Value → Value + string.

(** Modelled from the spec: the evaluator that [compileToFunction] of
    [./expression] produces (section 4.5).  A literal evaluates to its
    value; the arguments of a call are evaluated in order and the first
    error among them is the result; a fault of the operator becomes an error
    at the location of the call. *)
Fixpoint evaluate (env : Env) (e : Expression) (ctx : RuntimeContext)
  : Value + EvalError :=
  match e with
  | Literal _ _ value => inl value
  | VariableReference loc _ name =>
      match envLookup name env with
      | Some v => inl v
      | None =>
          inr {| message := "Unbound variable " +:+ name +:+ ".";
                 location := loc |}
      end
  | Call loc _ operator args =>
      match (fix evaluateArgs (args : list Expression)
               : list Value + EvalError :=
               match args with
               | [] => inl []
               | a :: args' =>
                   match evaluate env a ctx with
                   | inr err => inr err
                   | inl v =>
                       match evaluateArgs args' with
                       | inr err => inr err
                       | inl vs => inl (v :: vs)
                       end
                   end
               end) args with
      | inr err => inr err
      | inl vs =>
          match operators operator ctx vs with
          | inl v => inl v
          | inr msg => inr {| message := msg; location := loc |}
          end
      end
  | Binding _ _ name valueExpr bodyExpr =>
      match evaluate env valueExpr ctx with
      | inr err => inr err
      | inl v => evaluate ((name, v) :: env) bodyExpr ctx
      end
  | Poison loc =>
      inr {| message := "Expression failed to parse."; location := loc |}
  end.

(** The locations of the nodes of an expression, as the parser set them. *)
Fixpoint locations (e : Expression) : list Location :=
  match e with
  | Literal loc _ _ | VariableReference loc _ _ | Poison loc => [loc]
  | Call loc _ _ args => loc :: mjoin (locations <$> args)
  | Binding loc _ _ valueExpr bodyExpr =>
      loc :: locations valueExpr ++ locations bodyExpr
  end.

(** The values of a row of results, or the first error in the row. *)
Fixpoint allValues (results : list (Value + EvalError))
  : list Value + EvalError :=
  match results with
  | [] => inl []
  | inr err :: _ => inr err
  | inl v :: results' =>
      match allValues results' with
      | inr err => inr err
      | inl vs => inl (v :: vs)
      end
  end.

(** ** Evaluation of calls *)

(** The rule for a call, with the loop over the arguments spelled out as
    [allValues]. *)
Lemma evaluate_Call env loc ty operator args ctx :
  evaluate env (Call loc ty operator args) ctx
  = match allValues (map (λ a, evaluate env a ctx) args) with
    | inr err => inr err
    | inl vs =>
        match operators operator ctx vs with
        | inl v => inl v
        | inr msg => inr {| message := msg; location := loc |}
        end
    end.
Proof.
  simpl.
  match goal with
  | |- match ?loop args with _ => _ end = _ =>
      assert (loop args = allValues (map (λ a, evaluate env a ctx) args)) as ->;
        [|done]
  end.
  induction args as [|a args IH]; simpl; [done|].
  destruct (evaluate env a ctx); [|done]. by rewrite IH.
Qed.

Lemma allValues_inl results vs :
  allValues results = inl vs ↔ results = map inl vs.
Proof.
  revert vs. induction results as [|[v|err] results IH]; intros vs; simpl.
  - split; [by intros [= <-]|]. by destruct vs.
  - destruct (allValues results) as [vs'|err] eqn:Hall.
    + split.
      * intros [= <-]. simpl. f_equal. by apply IH.
      * destruct vs as [|v0 vs0]; [done|]. intros [= -> Hrest].
        apply IH in Hrest. congruence.
    + split; [done|]. destruct vs as [|v0 vs0]; [done|]. intros [= -> Hrest].
      apply IH in Hrest. congruence.
  - split; [done|]. by destruct vs.
Qed.

(** The first error of a row is the result, whatever follows it. *)
Lemma allValues_first_error results i err :
  results !! i = Some (inr err) →
  (∀ j r, j < i → results !! j = Some r → ∃ v, r = inl v) →
  allValues results = inr err.
Proof.
  revert i. induction results as [|r results IH]; intros i Hi Hbefore.
  - by rewrite lookup_nil in Hi.
  - destruct i as [|i]; simpl in *.
    + by injection Hi as ->.
    + destruct (Hbefore 0 r) as [v ->]; [lia|done|].
      rewrite (IH i Hi); [done|].
      intros j r' Hj Hr'. apply (Hbefore (S j) r'); [lia|done].
Qed.

(** An error of a row is the error of one of its results. *)
Lemma allValues_inr results err :
  allValues results = inr err → inr err ∈ results.
Proof.
  induction results as [|[v|err'] results IH]; simpl; [done| |].
  - destruct (allValues results); [done|]. intros [= ->]. right. by apply IH.
  - intros [= ->]. left.
Qed.

(** An error carries the location of a node of the expression that was
    evaluated. *)
Lemma evaluate_error_location e :
  ∀ env ctx err,
    evaluate env e ctx = inr err → location err ∈ locations e.
Proof.
  induction e as [loc ty value|loc ty name|loc ty operator args IH
                 |loc ty name v b IHv IHb|loc] using Expression_induction;
    intros env ctx err.
  - done.
  - simpl. destruct (envLookup name env); [done|]. intros [= <-]. left.
  - rewrite evaluate_Call.
    destruct (allValues _) as [vs|err'] eqn:Hall.
    + destruct (operators operator ctx vs); [done|]. intros [= <-]. left.
    + intros [= ->]. simpl. right.
      apply allValues_inr, list_elem_of_fmap in Hall as (a & Ha & Hin).
      apply list_elem_of_join. exists (locations a). split.
      * rewrite Forall_forall in IH. by apply (IH a Hin env ctx).
      * apply list_elem_of_fmap. by exists a.
  - simpl. destruct (evaluate env v ctx) as [x|err'] eqn:Hv.
    + intros Hb. right. apply elem_of_app. right. by eapply IHb.
    + intros [= ->]. right. apply elem_of_app. left. by eapply IHv.
  - simpl. intros [= <-]. left.
Qed.

End Evaluate.
End Evaluator.

(* ===================================================================== *)
(** * The facade over the parser, the classifiers and the evaluator *)
(* ===================================================================== *)

Module Pipeline.
Import Types Registry Expr.

(** ** A small operator catalogue: [+], [get], [zoom] and [number] *)

(** Modelled from the spec: the registry of [./definitions] (section 4.2),
    cut down to the operators of the scenarios of section 8 and to the
    assertion that a loosely-typed value is a number. *)
Definition definitions : gmap string (list Signature) :=
  list_to_map
    [ ("+", plus_overloads);
      ("get", get_overloads);
      ("zoom", [ {| paramTypes := []; variadic := None;
                    returnType := NumberT |} ]);
      ("number", [ {| paramTypes := [ValueT]; variadic := None;
                      returnType := NumberT |} ]) ].

(** Modelled from the spec: the operators that section 4.4 has the
    classifiers look for. *)
Definition zoomDependent (operator : string) : bool :=
  String.eqb operator "zoom".

(** Modelled from the spec: the accessors of feature properties, geometry
    type and feature state (section 4.4). *)
Definition featureDependent (operator : string) : bool :=
  bool_decide (operator ∈ ["get"; "has"; "properties"; "geometry-type"; "id";
                           "feature-state"]).

(** Modelled from the spec: the arithmetic of [+] (section 8, scenario A):
    the sum of numbers, [None] when an argument is not a number. *)
Fixpoint sum (vs : list Value) : option float :=
  match vs with
  | [] => Some 0%float
  | VNumber n :: vs' => (λ m, (n + m)%float) <$> sum vs'
  | _ :: _ => None
  end.

(** Modelled from the spec: the operator bodies of [./evaluation_context]
    for this catalogue (sections 4.5 and 8): a missing property and a value
    of the wrong shape are faults. *)
Definition operators (operator : string) (ctx : Evaluator.RuntimeContext)
    (args : list Value) : Value + string :=
  if String.eqb operator "+" then
    match sum args with
    | Some n => inl (VNumber n)
    | None => inr "Expected arguments of type number."
    end
  else if String.eqb operator "zoom" then
    inl (VNumber (Evaluator.zoom ctx))
  else if String.eqb operator "get" then
    match args with
    | VString key :: _ =>
        match Evaluator.properties ctx !! key with
        | Some v => inl v
        | None => inr ("Property '" +:+ key +:+ "' not found in feature.properties")
        end
    | _ => inr "Expected a property name."
    end
  else if String.eqb operator "number" then
    match args with
    | VNumber n :: _ => inl (VNumber n)
    | _ => inr "Expected value to be of type number."
    end
  else inr ("Unknown expression " +:+ operator +:+ ".").

(** ** The collaborators of [compileExpression] *)

(** Modelled from the spec: [ParsingContext] of [./expression] (sections 3
    and 4.3): the registry it consults, the location and expected type of
    the node to parse, the lexical scope and the accumulated errors.  The
    constructor starts with an empty scope and no error. *)
Record ParsingContext := {
  ctx_definitions : gmap string (list Signature);
  ctx_path : Location;
  ctx_expectedType : option Ty;
  ctx_scope : Parser.Scope;
  ctx_errors : list Parser.ParsingError
}.

(** Modelled from the spec: [new ParsingContext(definitions, path,
    expectedType)] (section 5: created afresh for every call). *)
Definition new_ParsingContext (definitions : gmap string (list Signature))
    (path : list nat) (expectedType : option Ty) : ParsingContext :=
  {| ctx_definitions := definitions; ctx_path := path;
     ctx_expectedType := expectedType; ctx_scope := []; ctx_errors := [] |}.

(** Modelled from the spec: [parseExpression(expr, context)] of
    [./parse_expression] as the facade calls it (section 4.3,
    "Termination"): the errors end up in the context, and an expression is
    handed back exactly when there is none. *)
Definition parseExpressionIn (expr : Value) (context : ParsingContext)
  : option Expression * ParsingContext :=
  let '(e, errors) :=
    Parser.parse (ctx_definitions context) expr (ctx_expectedType context)
                 (ctx_scope context) (ctx_path context) (ctx_errors context) in
  let context :=
    {| ctx_definitions := ctx_definitions context; ctx_path := ctx_path context;
       ctx_expectedType := ctx_expectedType context;
       ctx_scope := ctx_scope context; ctx_errors := errors |} in
  (match errors with [] => Some e | _ :: _ => None end, context).

(** Modelled from the spec: [CompilationContext] of [./expression] (section
    4.5): besides the evaluator it exposes the support payload shared by
    compiled expressions, a piece of source text. *)
Record CompilationContext := { prelude : string }.

(** Modelled from the spec: [new CompilationContext()], with an empty
    payload. *)
Definition new_CompilationContext : CompilationContext := {| prelude := "" |}.

(** A compiled function: from a runtime context to a value or an error. *)
Definition CompiledFunction : Type :=
  Evaluator.RuntimeContext → Value + Evaluator.EvalError.

(** Modelled from the spec: [compileToFunction(parsed, evaluationContext)]
    (section 4.5): the evaluator of [parsed] over the operator bodies of the
    evaluation context, with no variable bound. *)
Definition compileToFunctionIn (cc : CompilationContext) (parsed : Expression)
    (ectx : string → Evaluator.RuntimeContext → list Value → Value + string)
  : CompiledFunction * CompilationContext :=
  (Evaluator.evaluate ectx [] parsed, cc).

(** Nothing outlives a call: the registry is a constant. *)
Definition World : Type := unit.

(** A collaborator that neither reads nor writes the world. *)
Definition pure {A} (a : A) (w : World) : A * World := (a, w).

(** The result objects over these expressions, errors and functions. *)
Abbreviation ResultObject :=
  (gmap string
     (@Compile.JSValue Expression Parser.ParsingError CompiledFunction)).

(** [compileExpression] of [compile.js] over these collaborators. *)
Definition compile (expr : Value) (expectedType : option Ty)
  : Compile.M World ResultObject :=
  Compile.compileExpression
    definitions new_ParsingContext ctx_errors
    (λ expr context, pure (parseExpressionIn expr context))
    new_CompilationContext
    (λ cc parsed ectx, pure (compileToFunctionIn cc parsed ectx))
    (λ cc, pure (prelude cc))
    (pure operators)
    (λ parsed, pure (isFeatureConstant featureDependent parsed))
    (λ parsed, pure (isZoomConstant zoomDependent parsed))
    expr expectedType.

(** Modelled from the spec: the literal expressions of sections 4.3 and 6,
    a JSON scalar or the escape form [["literal", v]], with the value each
    denotes. *)
Definition literalValue (expr : Value) : option Value :=
  match expr with
  | VNull | VBool _ | VNumber _ | VString _ => Some expr
  | VArray [VString operator; v] =>
      if String.eqb operator "literal" then Some v else None
  | _ => None
  end.

(** Three contexts to evaluate in. *)
Definition tall_at_5 : Evaluator.RuntimeContext :=
  {| Evaluator.zoom := 5; Evaluator.properties := {[ "height" := VNumber 12 ]};
     Evaluator.geometryType := "Polygon"; Evaluator.featureState := ∅ |}.

Definition bare_at_5 : Evaluator.RuntimeContext :=
  {| Evaluator.zoom := 5; Evaluator.properties := ∅;
     Evaluator.geometryType := "Polygon"; Evaluator.featureState := ∅ |}.

(** The function of a result, applied to a context. *)
Definition evaluateAt (r : Compile.completion ResultObject * World)
    (ctx : Evaluator.RuntimeContext) : option (Value + Evaluator.EvalError) :=
  o ← Compile.returned r;
  match o !! "function" with
  | Some (Compile.JFunction f) => Some (f ctx)
  | _ => None
  end.

(** A field of a result. *)
Definition field (r : Compile.completion ResultObject * World)
    (name : string) : option Compile.JSValue :=
  Compile.returned r ≫= (.!! name).

(** ** The scenarios of the design document *)

Example scenario_A :
  let r := compile (VArray [VString "+"; VNumber 1; VNumber 2]) (Some NumberT) tt in
  field r "result" = Some (Compile.JString "success")
  ∧ field r "isZoomConstant" = Some (Compile.JBoolean true)
  ∧ field r "isFeatureConstant" = Some (Compile.JBoolean true)
  ∧ evaluateAt r tall_at_5 = Some (inl (VNumber 3))
  ∧ evaluateAt r bare_at_5 = Some (inl (VNumber 3)).
Proof. vm_compute. done. Qed.

Example scenario_B :
  let r := compile (VArray [VString "get"; VString "height"]) None tt in
  field r "result" = Some (Compile.JString "success")
  ∧ field r "isZoomConstant" = Some (Compile.JBoolean true)
  ∧ field r "isFeatureConstant" = Some (Compile.JBoolean false)
  ∧ evaluateAt r tall_at_5 = Some (inl (VNumber 12))
  ∧ evaluateAt r bare_at_5
    = Some (inr {| Evaluator.message :=
                     "Property 'height' not found in feature.properties";
                   Evaluator.location := [] |}).
Proof. vm_compute. done. Qed.

Example scenario_C :
  let r := compile (VArray [VString "zoom"]) None tt in
  field r "result" = Some (Compile.JString "success")
  ∧ field r "isZoomConstant" = Some (Compile.JBoolean false)
  ∧ field r "isFeatureConstant" = Some (Compile.JBoolean true)
  ∧ evaluateAt r bare_at_5 = Some (inl (VNumber 5)).
Proof. vm_compute. done. Qed.

Example unknown_operator :
  field (compile (VArray [VString "unknownOp"; VNumber 1]) None tt) "errors"
  = Some (Compile.JErrors
            [ {| Parser.message := "Unknown expression unknownOp.";
                 Parser.location := [0] |} ]).
Proof. vm_compute. done. Qed.

Example wrong_arity :
  field (compile (VArray [VString "+"; VNumber 1]) None tt) "errors"
  = Some (Compile.JErrors
            [ {| Parser.message :=
                   "Expected at least 2 arguments for +, but found 1 instead.";
                 Parser.location := [] |} ]).
Proof. vm_compute. done. Qed.

(** A string where [+] wants a number: the mismatch is reported at the
    argument. *)
Example type_mismatch_at_argument :
  field (compile (VArray [VString "+"; VNumber 1; VString "x"]) None tt) "errors"
  = Some (Compile.JErrors
            [ {| Parser.message := "Expected number but found string instead.";
                 Parser.location := [2] |} ]).
Proof. vm_compute. done. Qed.

(** A literal against an expected type it does not have. *)
Example literal_of_wrong_type :
  field (compile (VString "x") (Some NumberT) tt) "errors"
  = Some (Compile.JErrors
            [ {| Parser.message := "Expected number but found string instead.";
                 Parser.location := [] |} ]).
Proof. vm_compute. done. Qed.

(** A binding of the name [zoom] shadows the variable, not the operator. *)
Example shadowed_zoom :
  isZoomConstant zoomDependent
    (Binding [] NumberT "zoom" (Literal [2] NumberT (VNumber 3))
       (VariableReference [3] NumberT "zoom")) = true
  ∧ isZoomConstant zoomDependent (VariableReference [] NumberT "zoom") = false
  ∧ isZoomConstant zoomDependent
      (Binding [] NumberT "zoom" (Literal [2] NumberT (VNumber 3))
         (Call [3] NumberT "zoom" [])) = false.
Proof. vm_compute. done. Qed.

(** The first argument that fails decides: the lookup of [a] fails at
    location [[1; 1]], and the lookup of [b] is not reported. *)
Example first_error_wins :
  evaluateAt
    (compile
       (VArray [VString "+";
                VArray [VString "number"; VArray [VString "get"; VString "a"]];
                VArray [VString "number"; VArray [VString "get"; VString "b"]]])
       None tt)
    bare_at_5
  = Some (inr {| Evaluator.message :=
                   "Property 'a' not found in feature.properties";
                 Evaluator.location := [1; 1] |}).
Proof. vm_compute. done. Qed.

(** A property of the wrong shape: the fault of [number] is reported at
    its call. *)
Example wrong_shape :
  evaluateAt
    (compile (VArray [VString "+"; VNumber 1;
                      VArray [VString "number";
                              VArray [VString "get"; VString "height"]]])
             None tt)
    {| Evaluator.zoom := 5;
       Evaluator.properties := {[ "height" := VString "tall" ]};
       Evaluator.geometryType := "Polygon"; Evaluator.featureState := ∅ |}
  = Some (inr {| Evaluator.message := "Expected value to be of type number.";
                 Evaluator.location := [2] |}).
Proof. vm_compute. done. Qed.

(** ** Two runtime faults of the catalogue *)

(** A property the feature does not have: [get] fails at its call, naming
    the key, in every context without it. *)
Lemma get_missing_property env ctx loc ty keyLoc key :
  Evaluator.properties ctx !! key = None →
  Evaluator.evaluate operators env
    (Call loc ty "get" [Literal keyLoc StringT (VString key)]) ctx
  = inr {| Evaluator.message :=
             "Property '" +:+ key +:+ "' not found in feature.properties";
           Evaluator.location := loc |}.
Proof. intros Hkey. simpl. unfold operators. simpl. by rewrite Hkey. Qed.

(** A property of another shape than a number: [number] fails at its call,
    and [+] around it forwards the error. *)
Lemma number_of_wrong_shape env ctx loc ty loc' ty' keyLoc key v :
  Evaluator.properties ctx !! key = Some v →
  (∀ n, v ≠ VNumber n) →
  Evaluator.evaluate operators env
    (Call loc ty "+"
       [Call loc' ty' "number"
          [Call (loc' ++ [1]) ValueT "get"
                [Literal keyLoc StringT (VString key)]]]) ctx
  = inr {| Evaluator.message := "Expected value to be of type number.";
           Evaluator.location := loc' |}.
Proof.
  intros Hkey Hshape. simpl. unfold operators. simpl. rewrite Hkey.
  destruct v; try done. by destruct (Hshape n).
Qed.

(** ** The parser's contract with the facade *)

Lemma parseExpressionIn_reports expr context :
  (parseExpressionIn expr context).1 = None ↔
  ctx_errors (parseExpressionIn expr context).2 ≠ [].
Proof.
  unfold parseExpressionIn.
  destruct (Parser.parse _ _ _ _ _ _) as [e [|err errors]]; simpl.
  - split; [done|]. by intros [].
  - split; [done|]. by intros _.
Qed.

Lemma parser_reports_failures :
  Compile.reports_failures ctx_errors
    (λ expr context, pure (parseExpressionIn expr context)).
Proof.
  intros expr context w. unfold pure. simpl.
  apply parseExpressionIn_reports.
Qed.

(** A literal expression parses to a literal node, whatever the registry
    holds, and adds no error. *)
Lemma parse_literal registry expr v loc errors :
  literalValue expr = Some v →
  Parser.parse registry expr None [] loc errors
  = (Literal loc (Parser.typeOf v) v, errors).
Proof.
  destruct expr as [|b|n|s|items|members]; simpl; try by intros [= <-].
  destruct items as [|[| | |operator| |] [|v' [|]]]; try done.
  destruct (String.eqb operator "literal"); [|done].
  by intros [= <-].
Qed.

(** C6.  Every literal expression compiles, and the compiled function
    returns the literal's value in every runtime context, whatever its zoom
    and its feature data. *)
Theorem compile_literal expr v w :
  literalValue expr = Some v →
  ∃ (o : ResultObject) f,
    Compile.returned (compile expr None w) = Some o
    ∧ Compile.is_CompiledExpression o
    ∧ o !! "function" = Some (Compile.JFunction f)
    ∧ ∀ ctx : Evaluator.RuntimeContext, f ctx = inl v.
Proof.
  intros Hlit.
  assert (parseExpressionIn expr (new_ParsingContext definitions [] None)
          = (Some (Literal [] (Parser.typeOf v) v),
             new_ParsingContext definitions [] None)) as Hp.
  { unfold parseExpressionIn, new_ParsingContext. simpl.
    by rewrite (parse_literal _ _ _ _ _ Hlit). }
  pose proof (Compile.compileExpression_success
                definitions new_ParsingContext ctx_errors
                (λ expr context, pure (parseExpressionIn expr context))
                new_CompilationContext
                (λ cc parsed ectx, pure (compileToFunctionIn cc parsed ectx))
                (λ cc, pure (prelude cc))
                (pure operators)
                (λ parsed, pure (isFeatureConstant featureDependent parsed))
                (λ parsed, pure (isZoomConstant zoomDependent parsed))
                expr None w (Literal [] (Parser.typeOf v) v)
                (new_ParsingContext definitions [] None) w) as H.
  unfold pure in H. simpl in H. specialize (H (f_equal (λ p, (p, w)) Hp)).
  unfold compile, pure. rewrite H.
  eexists _, _. split_and!; [reflexivity| |reflexivity|reflexivity].
  apply Compile.success_object_is_CompiledExpression.
Qed.

(** ** The facade's theorems at concrete inputs *)

(** [["+", 1]] has too few arguments: the failure variant. *)
Lemma returns_one_variant_at_wrong_arity :
  ∃ o : ResultObject,
    Compile.returned (compile (VArray [VString "+"; VNumber 1]) None tt) = Some o
    ∧ Compile.one_variant o.
Proof.
  apply (Compile.compileExpression_returns_one_variant
           definitions new_ParsingContext ctx_errors
           (λ expr context, pure (parseExpressionIn expr context))
           new_CompilationContext
           (λ cc parsed ectx, pure (compileToFunctionIn cc parsed ectx))
           (λ cc, pure (prelude cc))
           (pure operators)
           (λ parsed, pure (isFeatureConstant featureDependent parsed))
           (λ parsed, pure (isZoomConstant zoomDependent parsed))
           (VArray [VString "+"; VNumber 1]) None tt).
  exact parser_reports_failures.
Defined.

(** The literal [1] compiles; the result has the six fields of
    [CompiledExpression]. *)
Lemma success_fields_at_literal :
  ∃ o : ResultObject,
    Compile.returned (compile (VNumber 1) None tt) = Some o
    ∧ Compile.is_CompiledExpression o
    ∧ o !! "type" = None.
Proof.
  edestruct (Compile.compileExpression_success_fields
               definitions new_ParsingContext ctx_errors
               (λ expr context, pure (parseExpressionIn expr context))
               new_CompilationContext
               (λ cc parsed ectx, pure (compileToFunctionIn cc parsed ectx))
               (λ cc, pure (prelude cc))
               (pure operators)
               (λ parsed, pure (isFeatureConstant featureDependent parsed))
               (λ parsed, pure (isZoomConstant zoomDependent parsed))
               (VNumber 1) None tt) as (Hvariant & Htype & _);
    [reflexivity|reflexivity|].
  eexists. split; [reflexivity|]. split; [exact Hvariant|exact Htype].
Defined.

(** The same result read against the four components
    [{evaluator, isZoomConstant, isFeatureConstant, type}]: it is a success,
    and it has no field named [type]. *)
Lemma success_result_without_type_field :
  ∃ o : ResultObject,
    Compile.returned (compile (VNumber 1) None tt) = Some o
    ∧ o !! "result" = Some (Compile.JString "success")
    ∧ dom o = list_to_set ["result"; "function"; "functionSource";
                           "isFeatureConstant"; "isZoomConstant"; "expression"]
    ∧ o !! "type" = None.
Proof. eexists. split; [reflexivity|]. by vm_compute. Qed.

(** The escaped array literal [["literal", [1, 2]]]. *)
Lemma compile_literal_at_array :
  ∃ (o : ResultObject) f,
    Compile.returned
      (compile (VArray [VString "literal"; VArray [VNumber 1; VNumber 2]])
               None tt) = Some o
    ∧ Compile.is_CompiledExpression o
    ∧ o !! "function" = Some (Compile.JFunction f)
    ∧ ∀ ctx : Evaluator.RuntimeContext,
        f ctx = inl (VArray [VNumber 1; VNumber 2]).
Proof.
  apply (compile_literal
           (VArray [VString "literal"; VArray [VNumber 1; VNumber 2]])
           (VArray [VNumber 1; VNumber 2]) tt).
  reflexivity.
Defined.

(** ** The three ways out, at concrete inputs *)

Lemma failure_runs_parser_only_at_unknown_operator :
  compile (VArray [VString "unknownOp"; VNumber 1]) None tt
  = (Compile.Normal
       (Compile.object
          [ ("result", Compile.JString "error");
            ("errors",
             Compile.JErrors
               [ {| Parser.message := "Unknown expression unknownOp.";
                    Parser.location := [0] |} ]) ]), tt).
Proof.
  apply (Compile.compileExpression_failure_runs_parser_only
           definitions new_ParsingContext ctx_errors
           (λ expr context, pure (parseExpressionIn expr context))
           new_CompilationContext
           (λ cc parsed ectx, pure (compileToFunctionIn cc parsed ectx))
           (λ cc, pure (prelude cc))
           (pure operators)
           (λ parsed, pure (isFeatureConstant featureDependent parsed))
           (λ parsed, pure (isZoomConstant zoomDependent parsed))
           (VArray [VString "unknownOp"; VNumber 1]) None tt);
    [reflexivity|discriminate].
Defined.

Lemma success_drops_errors_at_zoom :
  ∃ o : ResultObject,
    Compile.returned (compile (VArray [VString "zoom"]) None tt) = Some o
    ∧ Compile.is_CompiledExpression o
    ∧ o !! "expression"
      = Some (Compile.JExpression (Call [] NumberT "zoom" []))
    ∧ o !! "errors" = None.
Proof.
  apply (Compile.compileExpression_success_drops_errors
           definitions new_ParsingContext ctx_errors
           (λ expr context, pure (parseExpressionIn expr context))
           new_CompilationContext
           (λ cc parsed ectx, pure (compileToFunctionIn cc parsed ectx))
           (λ cc, pure (prelude cc))
           (pure operators)
           (λ parsed, pure (isFeatureConstant featureDependent parsed))
           (λ parsed, pure (isZoomConstant zoomDependent parsed))
           (VArray [VString "zoom"]) None tt (Call [] NumberT "zoom" [])).
  reflexivity.
Defined.

End Pipeline.
